(** * SharedString: an interning pool of reference-counted strings

    A shallow embedding of [SharedString/SharedString.cpp] and the
    properties of its pool, its records and its handles.

    The C++ objects are modelled by explicit state passing over a [World]:
    the heap of [SharedData] records, the [Storage] table of the single
    [SharedStorage], the caller's character buffers, and a trace of the
    lock, atomic and allocation events the code performs.  Undefined
    behaviour (a read through a dangling pointer, [erase(end())], a write
    past an allocated block) is the failure of the monad.

    The calls of a thread are taken one after the other: the interleaving
    of two threads inside [AddString] and [RemoveString] is not modelled. *)

From stdpp Require Import base option list gmap strings.
From Stdlib Require Import ZArith Lia Ascii.

Local Open Scope Z_scope.

(** ** The template parameter *)

(** [template <typename TChar>]: a character type with its equality, its
    [TChar(0)] and its [sizeof]. *)
Class CharType (TChar : Type) := {
  TChar_eq_dec :: EqDecision TChar;
  TChar_0 : TChar;
  sizeof_TChar : Z;
  sizeof_TChar_pos : 0 < sizeof_TChar
}.

(** [SharedString<char>], the instantiation of [main]. *)
#[global] Instance char_CharType : CharType ascii :=
  {| TChar_0 := "000"%char; sizeof_TChar := 1; sizeof_TChar_pos := eq_refl |}.

(** [uint32_t(n)]: conversion to a 32-bit unsigned integer. *)
Definition uint32_t (n : Z) : Z := n mod 2 ^ 32.

(** [sizeof(SharedData)]: a [std::atomic<uint32_t>] and a [uint32_t]. *)
Definition sizeof_SharedData : Z := 8.

(** ** Pointers *)

(** A [SharedData*]: the address of the static [EmptyBuffer], or of a block
    obtained from [new]. *)
Inductive SharedDataPtr :=
  | EmptyBufferPtr
  | HeapPtr (a : positive).

(** A [const TChar*]: the start of one of the caller's buffers, or the
    payload of a record, [GetBuffer()]. *)
Inductive TCharPtr :=
  | CallerBuf (b : positive)
  | BufferOf (d : SharedDataPtr).

#[global] Instance SharedDataPtr_eq_dec : EqDecision SharedDataPtr.
Proof. solve_decision. Defined.

#[global] Instance TCharPtr_eq_dec : EqDecision TCharPtr.
Proof. solve_decision. Defined.

(** [std::basic_string_view<TChar>]: a pointer and a size, no ownership. *)
Record string_view := { sv_data : TCharPtr; sv_size : Z }.

(** [std::basic_string<TChar>] as the code reads it: [c_str()] and
    [size()]. *)
Record basic_string := { c_str : TCharPtr; size : Z }.

(** [class SharedString]: its one member. *)
Record SharedString := { Data : SharedDataPtr }.

#[global] Instance string_view_eq_dec : EqDecision string_view.
Proof. solve_decision. Defined.

#[global] Instance SharedString_eq_dec : EqDecision SharedString.
Proof. solve_decision. Defined.

(** What the code does to the mutex, to the atomic counters and to the
    allocator, in program order. *)
Inductive event :=
  | EvLock
  | EvUnlock
  | EvInc (a : positive)
  | EvDec (a : positive)
  | EvNew (a : positive) (BufferSize : Z)
  | EvDelete (a : positive).

#[global] Instance event_eq_dec : EqDecision event.
Proof. solve_decision. Defined.

(** ** State and undefined behaviour *)

(** A computation over a state [S] that may be undefined. *)
Definition StateErr (S A : Type) : Type := S -> option (A * S).

Definition ret {S A} (x : A) : StateErr S A := fun w => Some (x, w).

Definition bind {S A B} (m : StateErr S A) (k : A -> StateErr S B) : StateErr S B :=
  fun w => match m w with
           | Some (x, w') => k x w'
           | None => None
           end.

Definition undefined {S A} : StateErr S A := fun _ => None.

Declare Scope M_scope.
Delimit Scope M_scope with M.
Notation "x <- m ;; k" := (bind m (fun x => k))
  (at level 100, m at next level, right associativity) : M_scope.
Notation "m ;;; k" := (bind m (fun _ => k))
  (at level 100, right associativity) : M_scope.

Section Model.
Context {TChar : Type} `{!CharType TChar}.

(** ** Records and the world *)

(** [class SharedData]: the two members, and the [TChar]s that follow the
    header in the same block ([GetBuffer()]). *)
Record SharedData := {
  RefCount : Z;
  Length : Z;
  Buffer : list TChar
}.

(** [SharedStorage::Storage] is kept as the list of its entries: a key is a
    [string_view], so it is compared through the memory it points to. The
    mapped [unique_ptr] is the address of the record the entry owns. *)
Record World := {
  Heap : gmap positive SharedData;
  Storage : list (string_view * positive);
  Caller : gmap positive (list TChar);
  Trace : list event
}.

Definition M (A : Type) : Type := StateErr World A.

Definition set_Heap (h : gmap positive SharedData) (w : World) : World :=
  {| Heap := h; Storage := Storage w; Caller := Caller w; Trace := Trace w |}.

Definition set_Storage (s : list (string_view * positive)) (w : World) : World :=
  {| Heap := Heap w; Storage := s; Caller := Caller w; Trace := Trace w |}.

Definition set_Caller (c : gmap positive (list TChar)) (w : World) : World :=
  {| Heap := Heap w; Storage := Storage w; Caller := c; Trace := Trace w |}.

Definition log (e : event) : M unit :=
  fun w => Some (tt, {| Heap := Heap w; Storage := Storage w;
                        Caller := Caller w; Trace := Trace w ++ [e] |}).

(** The program before its first statement: the function-local static
    [StaticSharedStorage] is empty, nothing is allocated. *)
Definition start (caller : gmap positive (list TChar)) : World :=
  {| Heap := ∅; Storage := []; Caller := caller; Trace := [] |}.

(** ** Memory *)

(** [EmptyBuffer]: [sizeof(SharedData) + sizeof(TChar)] zero bytes, read as
    a [SharedData] by [GetEmpty]. *)
Definition EmptyBuffer : SharedData :=
  {| RefCount := 0; Length := 0; Buffer := [TChar_0] |}.

Definition GetEmpty : SharedDataPtr := EmptyBufferPtr.

Definition deref (w : World) (p : SharedDataPtr) : option SharedData :=
  match p with
  | EmptyBufferPtr => Some EmptyBuffer
  | HeapPtr a => Heap w !! a
  end.

(** The array a [const TChar*] points to. *)
Definition chars_at (w : World) (p : TCharPtr) : option (list TChar) :=
  match p with
  | CallerBuf b => Caller w !! b
  | BufferOf d => Buffer <$> deref w d
  end.

(** Reading [n] elements from [p], as [memcpy] and the comparison of
    [string_view]s do; undefined out of the array. *)
Definition load (w : World) (p : TCharPtr) (n : Z) : option (list TChar) :=
  match chars_at w p with
  | Some l => if decide (0 <= n <= Z.of_nat (length l))
              then Some (take (Z.to_nat n) l) else None
  | None => None
  end.

Definition view (w : World) (v : string_view) : option (list TChar) :=
  load w (sv_data v) (sv_size v).

(** [std::char_traits<TChar>::length]: the number of elements before the
    first [TChar(0)]; undefined when the array holds none. *)
Fixpoint traits_length (l : list TChar) : option Z :=
  match l with
  | [] => None
  | c :: l' => if decide (c = TChar_0) then Some 0
               else Z.succ <$> traits_length l'
  end.

(** [std::basic_string_view<TChar>(Str).size()] *)
Definition strlen (Str : TCharPtr) : M Z :=
  fun w => match chars_at w Str with
           | Some l => match traits_length l with
                       | Some n => Some (n, w)
                       | None => None
                       end
           | None => None
           end.

(** ** SharedData *)

Definition GetBuffer (this : SharedDataPtr) : TCharPtr := BufferOf this.

Definition GetLength (this : SharedDataPtr) : M Z :=
  fun w => match deref w this with
           | Some d => Some (Length d, w)
           | None => None
           end.

(** [++RefCount] on a [std::atomic<uint32_t>]. [EmptyBuffer] is [const]:
    a write to it is undefined. *)
Definition IncRefCount (this : SharedDataPtr) : M unit :=
  match this with
  | EmptyBufferPtr => undefined
  | HeapPtr a => fun w =>
      match Heap w !! a with
      | Some d =>
          let d' := {| RefCount := uint32_t (RefCount d + 1);
                       Length := Length d; Buffer := Buffer d |} in
          Some (tt, {| Heap := <[a := d']> (Heap w); Storage := Storage w;
                       Caller := Caller w; Trace := Trace w ++ [EvInc a] |})
      | None => None
      end
  end.

(** [return --RefCount;] *)
Definition DecRefCount (this : SharedDataPtr) : M Z :=
  match this with
  | EmptyBufferPtr => undefined
  | HeapPtr a => fun w =>
      match Heap w !! a with
      | Some d =>
          let d' := {| RefCount := uint32_t (RefCount d - 1);
                       Length := Length d; Buffer := Buffer d |} in
          Some (RefCount d',
                {| Heap := <[a := d']> (Heap w); Storage := Storage w;
                   Caller := Caller w; Trace := Trace w ++ [EvDec a] |})
      | None => None
      end
  end.

(** The constructor [SharedData(Str, StrLength)], run by placement [new] in
    a block of [block] bytes at [this]: the header, [StrLength] elements
    copied from [Str], and [TChar(0)]. Undefined when they do not fit in
    the block. *)
Definition SharedData_ctor (this : positive) (block : Z)
    (Str : TCharPtr) (StrLength : Z) : M unit :=
  fun w =>
    match load w Str StrLength with
    | Some chars =>
        if decide (sizeof_SharedData + (StrLength + 1) * sizeof_TChar <= block)
        then
          let d := {| RefCount := 1; Length := StrLength;
                      Buffer := chars ++ [TChar_0] |} in
          Some (tt, set_Heap (<[this := d]> (Heap w)) w)
        else None
    | None => None
    end.

(** [new uint8_t[BufferSize]]: an address that is not in use. *)
Definition new (BufferSize : Z) : M positive :=
  fun w => let a := fresh (dom (Heap w)) in
           Some (a, {| Heap := Heap w; Storage := Storage w;
                       Caller := Caller w;
                       Trace := Trace w ++ [EvNew a BufferSize] |}).

(** ** SharedStorage *)

(** Key equality of the table: the elements a key views are those of the
    string looked up. *)
Definition key_is (w : World) (q : list TChar) (e : string_view * positive) : Prop :=
  view w e.1 = Some q.

#[global] Instance key_is_dec w q e : Decision (key_is w q e).
Proof. unfold key_is. apply _. Defined.

(** [Storage.find(k)]: an iterator is the position of an entry, [end()] is
    [None]. An entry matches when its key reads, now, the elements looked
    up. The keys are views of caller memory: a hash table also goes by the
    hash a key had when it was inserted, and reads a key whose memory was
    freed; the two searches agree as long as every key reads what it read
    when it was inserted. *)
Definition Storage_find (k : string_view)
  : M (option (nat * (string_view * positive))) :=
  fun w => match view w k with
           | Some q => Some (list_find (key_is w q) (Storage w), w)
           | None => None
           end.

(** [Storage.emplace(k, Result)] after a [find] that failed. The order of
    the entries of an [unordered_map] is not specified; they are kept in
    the order of their insertion, and [find] returns the first that
    matches. *)
Definition Storage_emplace (k : string_view) (Result : positive) : M unit :=
  fun w => Some (tt, set_Storage (Storage w ++ [(k, Result)]) w).

(** [Storage.erase(Iter)]: the entry goes, and its [unique_ptr] deletes the
    record it owns. [erase(end())] is undefined. The block of the record
    was obtained by [new uint8_t[BufferSize]] and the
    [unique_ptr<SharedData>] releases it by [delete] on a [SharedData*]:
    the two forms do not match, and the standard gives such a [delete] no
    meaning. The model takes it for what an allocator does with it, the
    block is freed; every [EvDelete] of a trace is one such [delete]. *)
Definition Storage_erase (Iter : option (nat * (string_view * positive))) : M unit :=
  match Iter with
  | Some (i, (_, a)) => fun w =>
      Some (tt, {| Heap := delete a (Heap w); Storage := delete i (Storage w);
                   Caller := Caller w; Trace := Trace w ++ [EvDelete a] |})
  | None => undefined
  end.

(** [BufferSize] of [AddString]: [Length + 1] is computed in [uint32_t]. *)
Definition BufferSize (Length : Z) : Z :=
  sizeof_SharedData + uint32_t (Length + 1) * sizeof_TChar.

Definition AddString (Str : TCharPtr) (Length : Z) : M SharedDataPtr :=
  (let StringView := {| sv_data := Str; sv_size := Length |} in
   log EvLock ;;;
   Iter <- Storage_find StringView ;;
   match Iter with
   | Some (_, (_, a)) =>
       let Result := HeapPtr a in
       IncRefCount Result ;;;
       log EvUnlock ;;;
       ret Result
   | None =>
       Result <- new (BufferSize Length) ;;
       SharedData_ctor Result (BufferSize Length) Str Length ;;;
       Storage_emplace StringView Result ;;;
       log EvUnlock ;;;
       ret (HeapPtr Result)
   end)%M.

Definition RemoveString (Data : SharedDataPtr) : M unit :=
  (n <- DecRefCount Data ;;
   if decide (n = 0) then
     log EvLock ;;;
     len <- GetLength Data ;;
     Iter <- Storage_find {| sv_data := GetBuffer Data; sv_size := len |} ;;
     Storage_erase Iter ;;;
     log EvUnlock
   else ret tt)%M.

(** ** SharedString *)

(** [CopyRef] calls [Data->IncRefCounter()]. [SharedData] declares
    [IncRefCount] and [DecRefCount] and no [IncRefCounter]: the call names
    no member, and no instantiation of [CopyRef] is well-formed. *)
Definition IncRefCounter (this : SharedDataPtr) : M unit := undefined.

Definition CopyRef (Data : SharedDataPtr) : M SharedDataPtr :=
  (IncRefCounter Data ;;; ret Data)%M.

Definition GetData (Str : TCharPtr) : M SharedDataPtr :=
  (Length <- strlen Str ;;
   if decide (Length = 0) then ret GetEmpty
   else AddString Str (uint32_t Length))%M.

(** [SharedString()] *)
Definition SharedString_default : M SharedString :=
  ret {| Data := GetEmpty |}.

(** [SharedString(const TChar* Str)] *)
Definition SharedString_raw (Str : TCharPtr) : M SharedString :=
  (d <- GetData Str ;; ret {| Data := d |})%M.

(** [SharedString(const std::basic_string<TChar>& Str)] *)
Definition SharedString_string (Str : basic_string) : M SharedString :=
  (d <- (if decide (size Str = 0) then ret GetEmpty
         else AddString (c_str Str) (uint32_t (size Str))) ;;
   ret {| Data := d |})%M.

(** [SharedString(const SharedString& Str)], the initializer as it is
    written. A program that uses this constructor instantiates [CopyRef],
    whatever the source is bound to, and is ill-formed: the branch that
    does not call [CopyRef] is reached in no program. *)
Definition SharedString_copy (Str : SharedString) : M SharedString :=
  (d <- (if decide (Data Str = GetEmpty) then ret GetEmpty
         else CopyRef (Data Str)) ;;
   ret {| Data := d |})%M.

(** [SharedString(SharedString&& Str)]: the new handle, and [Str] as the
    constructor leaves it. *)
Definition SharedString_move (Str : SharedString) : M (SharedString * SharedString) :=
  ret ({| Data := Data Str |}, {| Data := GetEmpty |}).

(** [SharedString(const TChar(&Str)[Size])] *)
Definition SharedString_literal (Size : Z) (Str : TCharPtr) : M SharedString :=
  (d <- (if decide (Size = 0) then ret GetEmpty
         else AddString Str (uint32_t (Size - 1))) ;;
   ret {| Data := d |})%M.

Definition Clear (this : SharedString) : M unit :=
  if decide (Data this <> GetEmpty) then RemoveString (Data this) else ret tt.

(** [~SharedString()] *)
Definition SharedString_dtor (this : SharedString) : M unit := Clear this.

(** [operator = (const SharedString& Str)]: [*this] after the call, the
    body as it is written. As for the copy constructor, a program that
    uses this operator instantiates [CopyRef] and is ill-formed. *)
Definition assign_copy (this Str : SharedString) : M SharedString :=
  if decide (Data Str <> Data this) then
    (Clear this ;;;
     d <- (if decide (Data Str = GetEmpty) then ret GetEmpty
           else CopyRef (Data Str)) ;;
     ret {| Data := d |})%M
  else ret this.

(** [operator = (SharedString&& Str)]: [*this] and [Str] after the call. *)
Definition assign_move (this Str : SharedString) : M (SharedString * SharedString) :=
  if decide (Data Str <> Data this) then
    (Clear this ;;;
     ret ({| Data := Data Str |}, {| Data := GetEmpty |}))%M
  else ret (this, Str).

(** [operator = (const std::basic_string_view<TChar>& Str)] *)
Definition assign_view (this : SharedString) (Str : string_view) : M SharedString :=
  (Clear this ;;;
   d <- (if decide (sv_size Str = 0) then ret GetEmpty
         else AddString (sv_data Str) (uint32_t (sv_size Str))) ;;
   ret {| Data := d |})%M.

(** [operator = (const std::basic_string<TChar>& Str)] *)
Definition assign_string (this : SharedString) (Str : basic_string) : M SharedString :=
  assign_view this {| sv_data := c_str Str; sv_size := size Str |}.

(** [operator = (const TChar* Str)] *)
Definition assign_raw (this : SharedString) (Str : TCharPtr) : M SharedString :=
  (n <- strlen Str ;; assign_view this {| sv_data := Str; sv_size := n |})%M.

(** [operator = (const TChar(&Str)[Size])] *)
Definition assign_literal (this : SharedString) (Size : Z) (Str : TCharPtr) : M SharedString :=
  assign_view this {| sv_data := Str; sv_size := Size |}.

Definition CStr (this : SharedString) : TCharPtr := GetBuffer (Data this).

(** [Str()]: [std::basic_string<TChar>(Data->GetBuffer(), Data->GetLength())],
    the elements of the new string. *)
Definition Str (this : SharedString) : M (list TChar) :=
  (len <- GetLength (Data this) ;;
   fun w => match load w (GetBuffer (Data this)) len with
            | Some l => Some (l, w)
            | None => None
            end)%M.

(** ** Sources of content *)

(** The three constructors that take content. *)
Inductive Source :=
  | Raw (Str : TCharPtr)
  | Owned (Str : basic_string)
  | Literal (Size : Z) (Str : TCharPtr).

Definition construct (s : Source) : M SharedString :=
  match s with
  | Raw Str => SharedString_raw Str
  | Owned Str => SharedString_string Str
  | Literal Size Str => SharedString_literal Size Str
  end.

Definition source_ptr (s : Source) : TCharPtr :=
  match s with
  | Raw Str => Str
  | Owned Str => c_str Str
  | Literal _ Str => Str
  end.

(** The length of the string a source denotes: up to the terminator, the
    [size()] of the string, the array without its last element. *)
Definition source_size (w : World) (s : Source) : option Z :=
  match s with
  | Raw Str => match chars_at w Str with
               | Some l => traits_length l
               | None => None
               end
  | Owned Str => Some (size Str)
  | Literal Size _ => Some (Size - 1)
  end.

(** The string a source denotes. *)
Definition content (w : World) (s : Source) : option (list TChar) :=
  match source_size w s with
  | Some n => load w (source_ptr s) n
  | None => None
  end.

(** ** Invariants *)

(** The content of a record: the [Length] elements at [GetBuffer()]. *)
Definition payload (d : SharedData) : list TChar :=
  take (Z.to_nat (Length d)) (Buffer d).

(** A record as its constructor leaves it: [Length] elements and the
    terminator, two [uint32_t] members. *)
Record record_ok (d : SharedData) : Prop := {
  rec_Buffer : Buffer d = payload d ++ [TChar_0];
  rec_Length : Length d = Z.of_nat (length (payload d));
  rec_Length_range : Length d < 2 ^ 32;
  rec_RefCount_range : 0 <= RefCount d < 2 ^ 32
}.

(** The pool between two calls: every key is a view of caller memory that
    reads the content of the record its entry owns, every record is owned
    by one entry, and no two records hold the same content. *)
Record pool_ok (w : World) : Prop := {
  pool_entries : forall k a, (k, a) ∈ Storage w ->
    exists b d, sv_data k = CallerBuf b /\ Heap w !! a = Some d /\
                view w k = Some (payload d);
  pool_records : forall a d, Heap w !! a = Some d ->
    record_ok d /\ exists k, (k, a) ∈ Storage w;
  pool_owned_once : NoDup (Storage w).*2;
  pool_canonical : forall a1 a2 d1 d2,
    Heap w !! a1 = Some d1 -> Heap w !! a2 = Some d2 ->
    payload d1 = payload d2 -> a1 = a2
}.

(** The number of handles of [hs] bound to the record at [a]. *)
Definition handles_on (a : positive) (hs : list SharedString) : Z :=
  Z.of_nat (length (filter (fun h => Data h = HeapPtr a) hs)).

(** The live handles [hs] account for the counters: a record counts the
    handles bound to it, and every handle is bound to [EmptyBuffer] or to a
    record of the heap. *)
Record accounted (w : World) (hs : list SharedString) : Prop := {
  acc_count : forall a d, Heap w !! a = Some d -> RefCount d = handles_on a hs;
  acc_live : forall h a, h ∈ hs -> Data h = HeapPtr a -> is_Some (Heap w !! a)
}.

(** The worlds [AddString] leaves. *)
Definition IncRefCount_data (d : SharedData) : SharedData :=
  {| RefCount := uint32_t (RefCount d + 1); Length := Length d; Buffer := Buffer d |}.

Definition DecRefCount_data (d : SharedData) : SharedData :=
  {| RefCount := uint32_t (RefCount d - 1); Length := Length d; Buffer := Buffer d |}.

Definition hit_world (a : positive) (d : SharedData) (w : World) : World :=
  {| Heap := <[a := IncRefCount_data d]> (Heap w);
     Storage := Storage w; Caller := Caller w;
     Trace := Trace w ++ [EvLock; EvInc a; EvUnlock] |}.

Definition miss_world (Str : TCharPtr) (Len : Z) (q : list TChar) (w : World) : World :=
  let a := fresh (dom (Heap w)) in
  {| Heap := <[a := {| RefCount := 1; Length := Len; Buffer := q ++ [TChar_0] |}]> (Heap w);
     Storage := Storage w ++ [({| sv_data := Str; sv_size := Len |}, a)];
     Caller := Caller w;
     Trace := Trace w ++ [EvLock; EvNew a (BufferSize Len); EvUnlock] |}.

(** The worlds [RemoveString] leaves. *)
Definition keep_world (a : positive) (d : SharedData) (w : World) : World :=
  {| Heap := <[a := DecRefCount_data d]> (Heap w);
     Storage := Storage w; Caller := Caller w;
     Trace := Trace w ++ [EvDec a] |}.

Definition erase_world (a : positive) (i : nat) (w : World) : World :=
  {| Heap := delete a (Heap w);
     Storage := delete i (Storage w); Caller := Caller w;
     Trace := Trace w ++ [EvDec a; EvLock; EvDelete a; EvUnlock] |}.

(** What is interned for the content [C]: the elements that a 32-bit
    length covers. *)
Definition interned (C : list TChar) : list TChar :=
  take (Z.to_nat (uint32_t (Z.of_nat (length C)))) C.

(** The mutex after a trace: how many times it was locked and not yet
    unlocked. *)
Fixpoint lock_depth (t : list event) : Z :=
  match t with
  | [] => 0
  | EvLock :: t => 1 + lock_depth t
  | EvUnlock :: t => lock_depth t - 1
  | _ :: t => lock_depth t
  end.

(** ** The interface, call by call *)

(** One call of the interface on the live handles of the program, by a
    program that passes strings of its own memory, none of a length that is
    2^32 - 1 modulo 2^32 (see [BufferSize]), that does not write to them
    afterwards, and that holds fewer than 2^32 - 1 handles. The handles are
    kept up to their order.

    These are conditions on the program, and the code does not enforce
    any of them. The calls come one after another, as those of one thread
    do, and [Caller] never changes: [AddString] keeps the pointer it is
    given as the key of the table, so the relation leaves out every program
    that writes to a string, or frees it, after it has built a handle from
    it. What the code does to such a program, and between the calls of two
    threads, is stated apart, on runs that are written out. *)
Inductive step : World * list SharedString -> World * list SharedString -> Prop :=
  | step_default w hs h w' :
      SharedString_default w = Some (h, w') ->
      step (w, hs) (w', h :: hs)
  | step_construct w hs s b C h w' :
      source_ptr s = CallerBuf b -> content w s = Some C ->
      uint32_t (Z.of_nat (length C)) <> 2 ^ 32 - 1 ->
      Z.of_nat (length hs) < 2 ^ 32 - 1 ->
      construct s w = Some (h, w') ->
      step (w, hs) (w', h :: hs)
  | step_copy w hs src h w' :
      src ∈ hs -> SharedString_copy src w = Some (h, w') ->
      step (w, hs) (w', h :: hs)
  | step_move w hs src rest h src' w' :
      hs ≡ₚ src :: rest ->
      SharedString_move src w = Some ((h, src'), w') ->
      step (w, hs) (w', h :: src' :: rest)
  | step_dtor w hs h rest w' :
      hs ≡ₚ h :: rest -> SharedString_dtor h w = Some (tt, w') ->
      step (w, hs) (w', rest)
  | step_assign_copy w hs this rest src this' w' :
      hs ≡ₚ this :: rest -> src ∈ hs ->
      assign_copy this src w = Some (this', w') ->
      step (w, hs) (w', this' :: rest)
  | step_assign_move w hs this src rest this' src' w' :
      hs ≡ₚ this :: src :: rest ->
      assign_move this src w = Some ((this', src'), w') ->
      step (w, hs) (w', this' :: src' :: rest)
  | step_assign_move_self w hs this rest this' src' w' :
      hs ≡ₚ this :: rest ->
      assign_move this this w = Some ((this', src'), w') ->
      step (w, hs) (w', this' :: rest)
  | step_assign_view w hs this rest v b C this' w' :
      hs ≡ₚ this :: rest ->
      sv_data v = CallerBuf b -> view w v = Some C ->
      uint32_t (sv_size v) <> 2 ^ 32 - 1 ->
      Z.of_nat (length hs) < 2 ^ 32 - 1 ->
      assign_view this v w = Some (this', w') ->
      step (w, hs) (w', this' :: rest)
  | step_assign_string w hs this rest Str b C this' w' :
      hs ≡ₚ this :: rest ->
      c_str Str = CallerBuf b ->
      view w {| sv_data := c_str Str; sv_size := size Str |} = Some C ->
      uint32_t (size Str) <> 2 ^ 32 - 1 ->
      Z.of_nat (length hs) < 2 ^ 32 - 1 ->
      assign_string this Str w = Some (this', w') ->
      step (w, hs) (w', this' :: rest)
  | step_assign_raw w hs this rest b n C this' w' :
      hs ≡ₚ this :: rest ->
      strlen (CallerBuf b) w = Some (n, w) ->
      view w {| sv_data := CallerBuf b; sv_size := n |} = Some C ->
      uint32_t n <> 2 ^ 32 - 1 ->
      Z.of_nat (length hs) < 2 ^ 32 - 1 ->
      assign_raw this (CallerBuf b) w = Some (this', w') ->
      step (w, hs) (w', this' :: rest)
  | step_assign_literal w hs this rest Size b C this' w' :
      hs ≡ₚ this :: rest ->
      view w {| sv_data := CallerBuf b; sv_size := Size |} = Some C ->
      uint32_t Size <> 2 ^ 32 - 1 ->
      Z.of_nat (length hs) < 2 ^ 32 - 1 ->
      assign_literal this Size (CallerBuf b) w = Some (this', w') ->
      step (w, hs) (w', this' :: rest).

(** The states of a program whose memory holds [caller]. *)
Inductive reachable (caller : gmap positive (list TChar))
  : World -> list SharedString -> Prop :=
  | reachable_start : reachable caller (start caller) []
  | reachable_step w hs w' hs' :
      reachable caller w hs -> step (w, hs) (w', hs') ->
      reachable caller w' hs'.

(** No record is kept that nothing refers to: the counter of every record
    of the heap is at least 1. *)
Definition no_orphan (w : World) : Prop :=
  forall a d, Heap w !! a = Some d -> 1 <= RefCount d.

(** [RemoveString] after its test: what it does once [DecRefCount] has
    returned 0, the lookup of the entry and its [erase] under the mutex. *)
Definition RemoveString_erase (Data : SharedDataPtr) : M unit :=
  (log EvLock ;;;
   len <- GetLength Data ;;
   Iter <- Storage_find {| sv_data := GetBuffer Data; sv_size := len |} ;;
   Storage_erase Iter ;;;
   log EvUnlock)%M.

End Model.

Arguments SharedData : clear implicits.
Arguments World : clear implicits.
Arguments M : clear implicits.


Arguments Source : clear implicits.

(** ** Concrete programs *)

(** A string literal of [SharedString<char>]: its characters and the
    terminator. *)
Definition chars (s : string) : list ascii := String.list_ascii_of_string s.

Definition literal (s : string) : list ascii := chars s ++ ["000"%char].

(** Caller memory with two buffers that hold ["ab"], one that holds ["cd"],
    one that holds [""] and one that holds ["x"]. *)
Definition caller_ab : gmap positive (list ascii) :=
  {[ 1%positive := literal "ab"; 2%positive := literal "ab";
     3%positive := literal "cd"; 4%positive := literal "";
     5%positive := literal "x" ]}.

Definition w_ab : World ascii := start caller_ab.

(** [SharedString<char> a("ab");] from the buffer at 1: a new record. *)
Definition w_one : World ascii :=
  miss_world (CallerBuf 1) 2 (chars "ab") w_ab.

Definition ab_1 : SharedData ascii :=
  {| RefCount := 1; Length := 2; Buffer := literal "ab" |}.

(** Then [SharedString<char> b(s);] for a [std::string s] that holds
    ["ab"] in the buffer at 2: the same record, counted twice. *)
Definition w_two : World ascii := hit_world 1 ab_1 w_one.

(** Then [SharedString<char> c("cd");] from the buffer at 3: a second
    record. *)
Definition w_three : World ascii :=
  miss_world (CallerBuf 3) 2 (chars "cd") w_two.

(** After [SharedString<char> a("ab")] from the buffer at 1, the program
    writes ["cd"] into that buffer. *)
Definition w_stale : World ascii :=
  set_Caller (<[1%positive := literal "cd"]> (Caller w_one)) w_one.

(** A [std::string] of 2^32 - 1 characters. *)
Definition max_string : list ascii := replicate (Z.to_nat (2 ^ 32 - 1)) "a"%char.

Definition w_max : World ascii :=
  start {[ 1%positive := max_string ++ ["000"%char] ]}.

(** A [std::string] of 2^32 characters. *)
Definition huge : nat := Z.to_nat (2 ^ 32).

Definition huge_string : list ascii := replicate huge "a"%char.

Definition w_huge : World ascii :=
  start {[ 1%positive := huge_string ++ ["000"%char] ]}.

(** ** The discipline of the mutex *)

(** One event of a thread against the [std::mutex], which the thread
    holds or not: it locks the mutex when it does not hold it and unlocks
    it when it does; it counts up, allocates and frees records while it
    holds it, and counts down while it does not. Anything else is [None].
    What other threads do in the meantime is not in the trace. *)
Definition mutex_step (held : bool) (e : event) : option bool :=
  match e, held with
  | EvLock, false => Some true
  | EvUnlock, true => Some false
  | EvInc _, true => Some true
  | EvNew _ _, true => Some true
  | EvDelete _, true => Some true
  | EvDec _, false => Some false
  | _, _ => None
  end.

Fixpoint mutex_run (held : bool) (t : list event) : option bool :=
  match t with
  | [] => Some held
  | e :: t => match mutex_step held e with
              | Some held' => mutex_run held' t
              | None => None
              end
  end.

(** ** [main] *)

(** [main] of the source, for [SharedString<char>]. A string literal
    selects the constructor and the assignment that take [const TChar*]:
    they are not templates, and the conversion of the array to a pointer
    ranks as the binding of the array reference does. [str2] is
    move-constructed from [str1]. The four handles are destroyed at the end
    of the block, in the reverse order of their declaration. The parameters
    are the addresses of the four literals. *)
Definition main (str_lit str1_lit abcd_lit num_lit : positive) : M ascii unit :=
  (str <- SharedString_raw (CallerBuf str_lit) ;;
   str1 <- SharedString_raw (CallerBuf str1_lit) ;;
   moved <- SharedString_move str1 ;;
   str3 <- SharedString_raw (CallerBuf abcd_lit) ;;
   str2 <- assign_raw moved.1 (CallerBuf num_lit) ;;
   SharedString_dtor str3 ;;;
   SharedString_dtor str2 ;;;
   SharedString_dtor moved.2 ;;;
   SharedString_dtor str)%M.

(** The memory of a program in which the four literals of [main] are four
    arrays. *)
Definition caller_main : gmap positive (list ascii) :=
  {[ 1%positive := literal "str"; 2%positive := literal "str";
     3%positive := literal "abcd"; 4%positive := literal "12345" ]}.


Section Pool.
Context {TChar : Type} `{!CharType TChar}.
Implicit Types (w : World TChar) (d : SharedData TChar) (q : list TChar).

Lemma load_length w p n q : load w p n = Some q -> Z.of_nat (length q) = n.
Proof.
  unfold load. destruct (chars_at w p) as [l|]; [|done].
  case_decide; [|done]. intros [= <-]. rewrite length_take. lia.
Qed.

Lemma payload_ctor n q :
  n = Z.of_nat (length q) ->
  payload {| RefCount := 1; Length := n; Buffer := q ++ [TChar_0] |} = q.
Proof.
  intros ->. unfold payload. simpl. rewrite Nat2Z.id.
  by rewrite take_app_length.
Qed.

Lemma uint32_t_range n : 0 <= uint32_t n < 2 ^ 32.
Proof. unfold uint32_t. apply Z.mod_pos_bound. lia. Qed.

Lemma uint32_t_small n : 0 <= n < 2 ^ 32 -> uint32_t n = n.
Proof. intros H. unfold uint32_t. by apply Z.mod_small. Qed.

Lemma load_payload w a d :
  Heap w !! a = Some d -> record_ok d ->
  load w (GetBuffer (HeapPtr a)) (Length d) = Some (payload d).
Proof.
  intros Ha [Hb Hl _ _].
  unfold load, GetBuffer, chars_at, deref. rewrite Ha. simpl.
  rewrite decide_True; [done|].
  rewrite Hb, length_app. simpl. lia.
Qed.

Lemma view_caller w w' k b :
  sv_data k = CallerBuf b -> Caller w' = Caller w -> view w' k = view w k.
Proof.
  intros Hk Hc. unfold view, load, chars_at. by rewrite Hk, Hc.
Qed.

(** Changing the counter of one record leaves the pool as it is. *)
Lemma pool_ok_refcount w a d d' t :
  pool_ok w -> Heap w !! a = Some d ->
  Length d' = Length d -> Buffer d' = Buffer d ->
  0 <= RefCount d' < 2 ^ 32 ->
  pool_ok {| Heap := <[a := d']> (Heap w); Storage := Storage w;
             Caller := Caller w; Trace := t |}.
Proof.
  intros [He Hr Hn Hc] Ha Hl Hb Hrc.
  assert (Hp : payload d' = payload d) by (unfold payload; by rewrite Hl, Hb).
  split; simpl.
  - intros k a0 Hin. destruct (He k a0 Hin) as (b & d0 & Hk & Hd0 & Hv).
    destruct (decide (a0 = a)) as [->|Hne].
    + exists b, d'. rewrite lookup_insert_eq. split_and!; [done..|].
      rewrite (view_caller w _ k b); [|done..]. rewrite Hv. congruence.
    + exists b, d0. rewrite lookup_insert_ne by done. split_and!; [done..|].
      by rewrite (view_caller w _ k b).
  - intros a0 d0. destruct (decide (a0 = a)) as [->|Hne].
    + rewrite lookup_insert_eq. intros [= <-].
      destruct (Hr a d Ha) as [[Hbuf Hlen Hlr _] Hex]. split; [|done].
      split; rewrite ?Hp, ?Hb, ?Hl; done.
    + rewrite lookup_insert_ne by done. apply Hr.
  - done.
  - intros a1 a2 d1 d2 H1 H2 Heq.
    assert (Hold : forall x dx, <[a := d']> (Heap w) !! x = Some dx ->
              exists dy, Heap w !! x = Some dy /\ payload dy = payload dx).
    { intros x dx. destruct (decide (x = a)) as [->|Hne].
      - rewrite lookup_insert_eq. intros [= <-]. eauto.
      - rewrite lookup_insert_ne by done. eauto. }
    destruct (Hold _ _ H1) as (e1 & He1 & Hp1).
    destruct (Hold _ _ H2) as (e2 & He2 & Hp2).
    apply (Hc a1 a2 e1 e2); congruence.
Qed.

(** In a pool that is in order, looking up the content of a live record
    finds the entry that owns it. *)
Lemma list_find_record w q a d :
  pool_ok w -> Heap w !! a = Some d -> payload d = q ->
  exists i k, list_find (key_is w q) (Storage w) = Some (i, (k, a)).
Proof.
  intros Hok Ha Hq. destruct (pool_records w Hok a d Ha) as [_ [k0 Hin]].
  destruct (pool_entries w Hok k0 a Hin) as (b & d0 & _ & Hd0 & Hv).
  assert (d0 = d) as -> by congruence.
  destruct (list_find_elem_of (key_is w q) (Storage w) (k0, a)) as [[i [k a']] Hf].
  { done. }
  { unfold key_is. simpl. congruence. }
  exists i, k. rewrite Hf. do 2 f_equal.
  apply list_find_Some in Hf as (Hi & Hkey & _).
  apply list_elem_of_lookup_2 in Hi.
  destruct (pool_entries w Hok k a' Hi) as (b' & d' & _ & Hd' & Hv').
  unfold key_is in Hkey. simpl in Hkey.
  f_equal. apply (pool_canonical w Hok a' a d' d); [done..|congruence].
Qed.

(** No record holds the content: the lookup fails. *)
Lemma list_find_absent w q :
  pool_ok w -> (forall a d, Heap w !! a = Some d -> payload d <> q) ->
  list_find (key_is w q) (Storage w) = None.
Proof.
  intros Hok Hno. apply list_find_None. apply Forall_forall.
  intros [k a] Hin Hkey. unfold key_is in Hkey. simpl in Hkey.
  destruct (pool_entries w Hok k a Hin) as (b & d & _ & Hd & Hv).
  apply (Hno a d Hd). congruence.
Qed.

Lemma pool_ok_trace w t :
  pool_ok w ->
  pool_ok {| Heap := Heap w; Storage := Storage w; Caller := Caller w; Trace := t |}.
Proof. intros [He Hr Hn Hc]. by split. Qed.

Lemma AddString_hit w Str Len q a d :
  pool_ok w -> load w Str Len = Some q ->
  Heap w !! a = Some d -> payload d = q ->
  AddString Str Len w = Some (HeapPtr a, hit_world a d w).
Proof.
  intros Hok Hq Ha Hp.
  pose proof (pool_ok_trace w (Trace w ++ [EvLock]) Hok) as Hok1.
  destruct (list_find_record _ q a d Hok1 Ha Hp) as (i & k & Hf).
  unfold AddString, bind, log, Storage_find, view. simpl.
  replace (load _ Str Len) with (Some q). simpl in *. rewrite Hf. simpl.
  rewrite Ha. unfold hit_world, ret, IncRefCount_data. simpl.
  by rewrite <- !app_assoc.
Qed.

Lemma BufferSize_fits Len :
  0 <= Len < 2 ^ 32 - 1 ->
  sizeof_SharedData + (Len + 1) * sizeof_TChar <= BufferSize Len.
Proof.
  intros H. unfold BufferSize, uint32_t. rewrite Z.mod_small by lia. lia.
Qed.

Lemma AddString_miss w Str Len q :
  pool_ok w -> load w Str Len = Some q ->
  (forall a d, Heap w !! a = Some d -> payload d <> q) ->
  Len <> 2 ^ 32 - 1 -> Len < 2 ^ 32 ->
  AddString Str Len w
  = Some (HeapPtr (fresh (dom (Heap w))), miss_world Str Len q w).
Proof.
  intros Hok Hq Hno Hmax Hlt.
  pose proof (load_length _ _ _ _ Hq) as Hlen.
  pose proof (pool_ok_trace w (Trace w ++ [EvLock]) Hok) as Hok1.
  pose proof (list_find_absent _ q Hok1 Hno) as Hf.
  unfold AddString, bind, log, Storage_find, view. simpl.
  replace (load _ Str Len) with (Some q). simpl in *. rewrite Hf. simpl.
  unfold SharedData_ctor, new. simpl.
  replace (load _ Str Len) with (Some q).
  rewrite decide_True by (apply BufferSize_fits; lia).
  unfold miss_world, set_Heap, set_Storage, Storage_emplace, ret. simpl.
  by rewrite <- !app_assoc.
Qed.

Lemma fresh_not_allocated w : Heap w !! fresh (dom (Heap w)) = None.
Proof. apply not_elem_of_dom. apply is_fresh. Qed.

Lemma pool_ok_hit w a d :
  pool_ok w -> Heap w !! a = Some d -> pool_ok (hit_world a d w).
Proof.
  intros Hok Ha. apply (pool_ok_refcount w a d); [done..|]. apply uint32_t_range.
Qed.

Lemma pool_ok_keep w a d :
  pool_ok w -> Heap w !! a = Some d -> pool_ok (keep_world a d w).
Proof.
  intros Hok Ha. apply (pool_ok_refcount w a d); [done..|]. apply uint32_t_range.
Qed.

Lemma pool_ok_miss w b Len q :
  pool_ok w -> load w (CallerBuf b) Len = Some q -> Len < 2 ^ 32 ->
  (forall a d, Heap w !! a = Some d -> payload d <> q) ->
  pool_ok (miss_world (CallerBuf b) Len q w).
Proof.
  intros Hok Hq Hlt Hno. pose proof (load_length _ _ _ _ Hq) as Hlen.
  pose proof (fresh_not_allocated w) as Hfresh.
  destruct Hok as [He Hr Hn Hc]. unfold miss_world.
  set (a := fresh (dom (Heap w))) in *.
  set (dn := {| RefCount := 1; Length := Len; Buffer := q ++ [TChar_0] |}).
  assert (Hpn : payload dn = q) by (by apply payload_ctor).
  split; simpl.
  - intros k a0 [Hin|Hin]%elem_of_app.
    + destruct (He k a0 Hin) as (b0 & d0 & Hk & Hd0 & Hv).
      exists b0, d0. split_and!; [done| |by rewrite (view_caller w _ k b0)].
      rewrite lookup_insert_ne; [done|]. intros <-. congruence.
    + apply list_elem_of_singleton in Hin as [= -> ->].
      exists b, dn. rewrite lookup_insert_eq. split_and!; [done..|].
      rewrite Hpn. exact Hq.
  - intros a0 d0. destruct (decide (a0 = a)) as [->|Hne].
    + rewrite lookup_insert_eq. intros [= <-]. split.
      * split; rewrite ?Hpn; simpl; [done|done|done|lia].
      * eexists. apply elem_of_app. right. by apply list_elem_of_singleton.
    + rewrite lookup_insert_ne by done. intros Hd0.
      destruct (Hr a0 d0 Hd0) as [? [k Hk]]. split; [done|].
      exists k. apply elem_of_app. by left.
  - rewrite fmap_app. simpl. apply NoDup_app. split_and!; [done| |apply NoDup_singleton].
    intros x Hx ->%list_elem_of_singleton.
    apply list_elem_of_fmap in Hx as ([k a0] & -> & Hin).
    destruct (He k a0 Hin) as (b0 & d0 & _ & Hd0 & _). simpl in *. congruence.
  - intros a1 a2 d1 d2.
    destruct (decide (a1 = a)) as [->|H1], (decide (a2 = a)) as [->|H2];
      rewrite ?lookup_insert_eq, ?lookup_insert_ne by done; try done.
    + intros [= <-] Hd2 Heq. destruct (Hno a2 d2 Hd2). congruence.
    + intros Hd1 [= <-] Heq. destruct (Hno a1 d1 Hd1). congruence.
    + apply Hc.
Qed.

Lemma RemoveString_keep w a d :
  Heap w !! a = Some d -> uint32_t (RefCount d - 1) <> 0 ->
  RemoveString (HeapPtr a) w = Some (tt, keep_world a d w).
Proof.
  intros Ha Hnz. unfold RemoveString, bind, DecRefCount. rewrite Ha. simpl.
  by rewrite decide_False.
Qed.

Lemma RemoveString_last w a d :
  pool_ok w -> Heap w !! a = Some d -> uint32_t (RefCount d - 1) = 0 ->
  exists i k, Storage w !! i = Some (k, a) /\
    RemoveString (HeapPtr a) w = Some (tt, erase_world a i w).
Proof.
  intros Hok Ha Hz.
  pose proof (pool_ok_refcount w a d (DecRefCount_data d)
                ((Trace w ++ [EvDec a]) ++ [EvLock]) Hok Ha eq_refl eq_refl
                (uint32_t_range _)) as Hok1.
  match type of Hok1 with pool_ok ?w1 =>
    assert (Ha1 : Heap w1 !! a = Some (DecRefCount_data d))
      by apply lookup_insert_eq;
    destruct (pool_records w1 Hok1 a _ Ha1) as [Hrec' _];
    pose proof (load_payload w1 a _ Ha1 Hrec') as Hq;
    destruct (list_find_record w1 _ a _ Hok1 Ha1 eq_refl) as (i & k & Hf)
  end.
  exists i, k. split.
  { apply list_find_Some in Hf as (Hi & _). exact Hi. }
  unfold RemoveString, bind, DecRefCount. rewrite Ha. simpl.
  rewrite decide_True by done.
  unfold log, GetLength, Storage_find, view, deref. simpl.
  rewrite lookup_insert_eq. unfold DecRefCount_data in *. simpl in *.
  match type of Hq with _ = ?r => replace (load _ (GetBuffer (HeapPtr a)) (Length d)) with r end.
  rewrite Hf. simpl. unfold erase_world. rewrite delete_insert_eq.
  by rewrite <- !app_assoc.
Qed.

Lemma pool_ok_erase w a i k :
  pool_ok w -> Storage w !! i = Some (k, a) -> pool_ok (erase_world a i w).
Proof.
  intros [He Hr Hn Hc] Hi. unfold erase_world.
  pose proof (take_drop_middle _ _ _ Hi) as Hsplit.
  rewrite delete_take_drop.
  set (l1 := take i (Storage w)) in *. set (l2 := drop (S i) (Storage w)) in *.
  rewrite <- Hsplit in Hn. rewrite fmap_app, fmap_cons in Hn. simpl in Hn.
  apply NoDup_app in Hn as (Hn1 & Hn12 & Hn2).
  apply NoDup_cons in Hn2 as (Hn2a & Hn2).
  assert (Hsub : forall e, e ∈ l1 ++ l2 -> e ∈ Storage w /\ e.2 <> a).
  { intros [k0 a0] Hin. split.
    - rewrite <- Hsplit. apply elem_of_app in Hin as [?|?];
        apply elem_of_app; [by left|right; by apply list_elem_of_further].
    - simpl. intros ->. apply elem_of_app in Hin as [Hin|Hin].
      + apply (Hn12 a); [by apply (list_elem_of_fmap_2 snd _ (k0, a))|].
        apply list_elem_of_here.
      + apply Hn2a. by apply (list_elem_of_fmap_2 snd _ (k0, a)). }
  split; simpl.
  - intros k0 a0 Hin. destruct (Hsub _ Hin) as [Hin' Hne]. simpl in Hne.
    destruct (He k0 a0 Hin') as (b0 & d0 & Hk & Hd0 & Hv).
    exists b0, d0. rewrite lookup_delete_ne by done. split_and!; [done..|].
    by rewrite (view_caller w _ k0 b0).
  - intros a0 d0 Hd0. apply lookup_delete_Some in Hd0 as [Hne Hd0].
    destruct (Hr a0 d0 Hd0) as [? [k0 Hk0]]. split; [done|]. exists k0.
    rewrite <- Hsplit in Hk0. apply elem_of_app in Hk0 as [?|Hk0].
    + apply elem_of_app. by left.
    + apply elem_of_cons in Hk0 as [[= _ ->]|?]; [done|].
      apply elem_of_app. by right.
  - rewrite fmap_app. apply NoDup_app. split_and!; [done| |done].
    intros x Hx1 Hx2. apply (Hn12 x Hx1). by apply list_elem_of_further.
  - intros a1 a2 d1 d2 [_ H1]%lookup_delete_Some [_ H2]%lookup_delete_Some.
    by apply Hc.
Qed.

(** Either a record holds the content, or none does. *)
Lemma record_dec w q :
  pool_ok w ->
  (exists a d, Heap w !! a = Some d /\ payload d = q) \/
  (forall a d, Heap w !! a = Some d -> payload d <> q).
Proof.
  intros Hok. destruct (list_find (key_is w q) (Storage w)) as [[i [k a]]|] eqn:Hf.
  - left. apply list_find_Some in Hf as (Hi & Hkey & _).
    apply list_elem_of_lookup_2 in Hi.
    destruct (pool_entries w Hok k a Hi) as (b & d & _ & Hd & Hv).
    exists a, d. split; [done|]. unfold key_is in Hkey. simpl in Hkey. congruence.
  - right. intros a d Hd Hp.
    destruct (list_find_record w q a d Hok Hd Hp) as (i & k & Hf'). congruence.
Qed.

(** ** Constructors that take content *)

Lemma content_size w s C :
  content w s = Some C -> source_size w s = Some (Z.of_nat (length C)).
Proof.
  unfold content. destruct (source_size w s) as [n|]; [|done].
  intros Hl. by rewrite (load_length _ _ _ _ Hl).
Qed.

Lemma content_load w s C :
  content w s = Some C ->
  load w (source_ptr s) (uint32_t (Z.of_nat (length C))) = Some (interned C).
Proof.
  intros Hc. pose proof (content_size w s C Hc) as Hn.
  unfold content in Hc. rewrite Hn in Hc. unfold load in *.
  destruct (chars_at w (source_ptr s)) as [l|]; [|done].
  case_decide as Hr; [|done]. injection Hc as <-.
  pose proof (uint32_t_range (Z.of_nat (length (take (Z.to_nat (Z.of_nat (length C))) l)))).
  rewrite Nat2Z.id in *.
  assert (Hle : uint32_t (Z.of_nat (length (take (length C) l)))
                <= Z.of_nat (length (take (length C) l))).
  { unfold uint32_t. apply Z.mod_le; lia. }
  rewrite length_take in *.
  rewrite decide_True by lia. f_equal. unfold interned.
  rewrite length_take, take_take. f_equal. lia.
Qed.

Lemma construct_AddString w s C :
  content w s = Some C -> C <> [] ->
  construct s w
  = bind (AddString (source_ptr s) (uint32_t (Z.of_nat (length C))))
         (fun r => ret {| Data := r |}) w.
Proof.
  intros Hc Hne. pose proof (content_size w s C Hc) as Hn.
  assert (Hpos : Z.of_nat (length C) <> 0) by (destruct C; [done|simpl; lia]).
  destruct s as [p|bs|Size p]; simpl in *.
  - unfold SharedString_raw, GetData, strlen, bind.
    destruct (chars_at w p) as [l|]; [|done]. rewrite Hn.
    by rewrite decide_False.
  - injection Hn as Hn. unfold SharedString_string, bind.
    rewrite decide_False by lia. by rewrite Hn.
  - injection Hn as Hn. unfold SharedString_literal, bind.
    rewrite decide_False by lia. by rewrite Hn.
Qed.

(** A constructor given a non-empty content binds the handle to the record
    that holds it when there is one, and to a new record otherwise. *)
Lemma construct_cases w s b C :
  pool_ok w -> source_ptr s = CallerBuf b ->
  content w s = Some C -> C <> [] ->
  uint32_t (Z.of_nat (length C)) <> 2 ^ 32 - 1 ->
  (exists a d, Heap w !! a = Some d /\ payload d = interned C /\
     construct s w = Some ({| Data := HeapPtr a |}, hit_world a d w)) \/
  ((forall a d, Heap w !! a = Some d -> payload d <> interned C) /\
     construct s w
     = Some ({| Data := HeapPtr (fresh (dom (Heap w))) |},
             miss_world (CallerBuf b) (uint32_t (Z.of_nat (length C))) (interned C) w)).
Proof.
  intros Hok Hb Hc Hne Hmax.
  pose proof (content_load w s C Hc) as Hl.
  rewrite (construct_AddString w s C Hc Hne). unfold bind.
  destruct (record_dec w (interned C) Hok) as [(a & d & Ha & Hp)|Hno].
  - left. exists a, d. split_and!; [done..|].
    by rewrite (AddString_hit w _ _ _ a d Hok Hl Ha Hp).
  - right. split; [done|].
    rewrite (AddString_miss w _ _ _ Hok Hl Hno Hmax); [by rewrite Hb|].
    apply uint32_t_range.
Qed.

(** ** Reading *)

Lemma Str_bound w a d :
  Heap w !! a = Some d -> record_ok d ->
  Str {| Data := HeapPtr a |} w = Some (payload d, w).
Proof.
  intros Ha Hd. unfold Str, bind, GetLength. simpl. rewrite Ha.
  by rewrite (load_payload w a d Ha Hd).
Qed.

Lemma Str_empty w : Str {| Data := GetEmpty |} w = Some ([], w).
Proof. reflexivity. Qed.

End Pool.

Section Handles.
Context {TChar : Type} `{!CharType TChar}.
Implicit Types (w : World TChar) (d : SharedData TChar) (q : list TChar).
Implicit Types (h : SharedString) (hs : list SharedString).

Lemma handles_on_cons a h hs :
  handles_on a (h :: hs)
  = (if decide (Data h = HeapPtr a) then 1 else 0) + handles_on a hs.
Proof.
  unfold handles_on. rewrite filter_cons. case_decide; simpl; lia.
Qed.

Lemma handles_on_app a hs1 hs2 :
  handles_on a (hs1 ++ hs2) = handles_on a hs1 + handles_on a hs2.
Proof. unfold handles_on. rewrite filter_app, length_app. lia. Qed.

Lemma handles_on_middle a h hs1 hs2 :
  handles_on a (hs1 ++ h :: hs2)
  = (if decide (Data h = HeapPtr a) then 1 else 0) + handles_on a (hs1 ++ hs2).
Proof. rewrite !handles_on_app, handles_on_cons. lia. Qed.

Lemma handles_on_nonneg a hs : 0 <= handles_on a hs.
Proof. unfold handles_on. lia. Qed.

Lemma handles_on_zero a hs :
  (forall h, h ∈ hs -> Data h <> HeapPtr a) -> handles_on a hs = 0.
Proof.
  intros H. unfold handles_on.
  assert (filter (fun h => Data h = HeapPtr a) hs = []) as ->; [|done].
  induction hs as [|h hs IH]; [done|]. rewrite filter_cons.
  rewrite decide_False by (apply H; apply list_elem_of_here).
  apply IH. intros h' Hin. apply H. by apply list_elem_of_further.
Qed.

Lemma handles_on_pos a h hs :
  h ∈ hs -> Data h = HeapPtr a -> 0 < handles_on a hs.
Proof.
  intros Hin Hd. unfold handles_on.
  assert (h ∈ filter (fun h => Data h = HeapPtr a) hs)
    by (by apply list_elem_of_filter).
  destruct (filter _ hs); [by apply not_elem_of_nil in H|simpl; lia].
Qed.

Lemma accounted_start (caller : gmap positive (list TChar)) :
  accounted (start caller) [].
Proof.
  split.
  - intros a d Ha. simpl in Ha. by rewrite lookup_empty in Ha.
  - intros h a Hin. by apply not_elem_of_nil in Hin.
Qed.

(** A handle on [EmptyBuffer] counts for no record. *)
Lemma accounted_empty_cons w h hs :
  Data h = EmptyBufferPtr -> accounted w hs -> accounted w (h :: hs).
Proof.
  intros Hh [Hc Hl]. split.
  - intros a d Ha. rewrite handles_on_cons, decide_False by congruence.
    by rewrite (Hc a d Ha).
  - intros h' a [->|Hin]%elem_of_cons Hd; [congruence|]. by apply (Hl h' a).
Qed.

Lemma accounted_empty_middle w h hs1 hs2 :
  Data h = EmptyBufferPtr -> accounted w (hs1 ++ h :: hs2) -> accounted w (hs1 ++ hs2).
Proof.
  intros Hh [Hc Hl]. split.
  - intros a d Ha. rewrite (Hc a d Ha), handles_on_middle.
    rewrite decide_False by congruence. lia.
  - intros h' a Hin. apply Hl. apply elem_of_app in Hin as [?|?];
      apply elem_of_app; [by left|right; by apply list_elem_of_further].
Qed.

(** A lookup hit pays for the new handle with one increment. *)
Lemma accounted_hit w a d hs :
  accounted w hs -> Heap w !! a = Some d -> RefCount d < 2 ^ 32 - 1 ->
  accounted (hit_world a d w) ({| Data := HeapPtr a |} :: hs).
Proof.
  intros [Hc Hl] Ha Hlt. split; simpl.
  - intros a0 d0. rewrite handles_on_cons. simpl.
    destruct (decide (a0 = a)) as [->|Hne].
    + rewrite lookup_insert_eq. intros [= <-]. simpl.
      rewrite decide_True by done. rewrite <- (Hc a d Ha).
      pose proof (handles_on_nonneg a hs). rewrite (Hc a d Ha) in *.
      rewrite uint32_t_small; lia.
    + rewrite lookup_insert_ne by done. intros Ha0.
      rewrite decide_False by congruence. by rewrite (Hc a0 d0 Ha0).
  - intros h' a0 [->|Hin]%elem_of_cons Hd.
    + simpl in Hd. injection Hd as <-. by rewrite lookup_insert_eq.
    + destruct (decide (a0 = a)) as [->|Hne].
      * by rewrite lookup_insert_eq.
      * rewrite lookup_insert_ne by done. by apply (Hl h' a0).
Qed.

(** A new record starts at one, for the handle it is made for. *)
Lemma accounted_miss w p Len q hs :
  accounted w hs ->
  accounted (miss_world p Len q w) ({| Data := HeapPtr (fresh (dom (Heap w))) |} :: hs).
Proof.
  intros [Hc Hl]. pose proof (fresh_not_allocated w) as Hfresh.
  unfold miss_world. set (a := fresh (dom (Heap w))) in *.
  assert (Hzero : handles_on a hs = 0).
  { apply handles_on_zero. intros h Hin Hd.
    destruct (Hl h a Hin Hd) as [? ?]. congruence. }
  split; simpl.
  - intros a0 d0. rewrite handles_on_cons. simpl.
    destruct (decide (a0 = a)) as [->|Hne].
    + rewrite lookup_insert_eq. intros [= <-]. simpl.
      rewrite decide_True by done. lia.
    + rewrite lookup_insert_ne by done. intros Ha0.
      rewrite decide_False by congruence. by rewrite (Hc a0 d0 Ha0).
  - intros h' a0 [->|Hin]%elem_of_cons Hd.
    + simpl in Hd. injection Hd as <-. by rewrite lookup_insert_eq.
    + destruct (decide (a0 = a)) as [->|Hne].
      * by rewrite lookup_insert_eq.
      * rewrite lookup_insert_ne by done. by apply (Hl h' a0).
Qed.

(** Releasing one of several handles. *)
Lemma accounted_keep w a d h hs1 hs2 :
  accounted w (hs1 ++ h :: hs2) -> Data h = HeapPtr a ->
  Heap w !! a = Some d -> RefCount d < 2 ^ 32 ->
  accounted (keep_world a d w) (hs1 ++ hs2).
Proof.
  intros [Hc Hl] Hh Ha Hlt. split; simpl.
  - intros a0 d0. destruct (decide (a0 = a)) as [->|Hne].
    + rewrite lookup_insert_eq. intros [= <-]. simpl.
      pose proof (Hc a d Ha) as Hk. rewrite handles_on_middle in Hk.
      rewrite decide_True in Hk by done.
      pose proof (handles_on_nonneg a (hs1 ++ hs2)).
      rewrite uint32_t_small; lia.
    + rewrite lookup_insert_ne by done. intros Ha0.
      rewrite (Hc a0 d0 Ha0), handles_on_middle.
      rewrite decide_False by congruence. lia.
  - intros h' a0 Hin Hd.
    assert (Hin' : h' ∈ hs1 ++ h :: hs2).
    { apply elem_of_app in Hin as [?|?];
        apply elem_of_app; [by left|right; by apply list_elem_of_further]. }
    destruct (decide (a0 = a)) as [->|Hne].
    + by rewrite lookup_insert_eq.
    + rewrite lookup_insert_ne by done. by apply (Hl h' a0).
Qed.

(** Releasing the last handle. *)
Lemma accounted_erase w a d i h hs1 hs2 :
  accounted w (hs1 ++ h :: hs2) -> Data h = HeapPtr a ->
  Heap w !! a = Some d -> RefCount d = 1 ->
  accounted (erase_world a i w) (hs1 ++ hs2).
Proof.
  intros [Hc Hl] Hh Ha Hone.
  pose proof (Hc a d Ha) as Hk. rewrite handles_on_middle in Hk.
  rewrite decide_True in Hk by done.
  split; simpl.
  - intros a0 d0 [Hne Ha0]%lookup_delete_Some.
    rewrite (Hc a0 d0 Ha0), handles_on_middle.
    rewrite decide_False by congruence. lia.
  - intros h' a0 Hin Hd.
    assert (Hin' : h' ∈ hs1 ++ h :: hs2).
    { apply elem_of_app in Hin as [?|?];
        apply elem_of_app; [by left|right; by apply list_elem_of_further]. }
    assert (Hne : a0 <> a).
    { intros ->. pose proof (handles_on_pos a h' _ Hin Hd). lia. }
    rewrite lookup_delete_ne by done. by apply (Hl h' a0).
Qed.

(** The destructor of a handle that is bound to a record. *)
Lemma dtor_bound w hs1 h hs2 a d :
  pool_ok w -> accounted w (hs1 ++ h :: hs2) ->
  Data h = HeapPtr a -> Heap w !! a = Some d ->
  (1 < RefCount d /\ SharedString_dtor h w = Some (tt, keep_world a d w)) \/
  (RefCount d = 1 /\ exists i k, Storage w !! i = Some (k, a) /\
     SharedString_dtor h w = Some (tt, erase_world a i w)).
Proof.
  intros Hok Hacc Hh Ha.
  pose proof (acc_count w _ Hacc a d Ha) as Hk. rewrite handles_on_middle in Hk.
  rewrite decide_True in Hk by done.
  pose proof (handles_on_nonneg a (hs1 ++ hs2)).
  destruct (pool_records w Hok a d Ha) as [[_ _ _ Hrc] _].
  unfold SharedString_dtor, Clear. rewrite Hh.
  rewrite decide_True by done.
  destruct (decide (RefCount d = 1)) as [Hone|Hmore].
  - right. split; [done|].
    apply (RemoveString_last w a d Hok Ha). by rewrite Hone.
  - left. split; [lia|]. apply RemoveString_keep; [done|].
    rewrite uint32_t_small; lia.
Qed.

Lemma dtor_empty w h :
  Data h = EmptyBufferPtr -> SharedString_dtor h w = Some (tt, w).
Proof. intros Hh. unfold SharedString_dtor, Clear. by rewrite Hh. Qed.

End Handles.

Section Calls.
Context {TChar : Type} `{!CharType TChar}.
Implicit Types (w : World TChar) (d : SharedData TChar) (q C : list TChar).
Implicit Types (h : SharedString) (hs : list SharedString) (s : Source).

Lemma handles_on_Permutation a hs hs' :
  hs ≡ₚ hs' -> handles_on a hs = handles_on a hs'.
Proof. intros Hp. unfold handles_on. by rewrite Hp. Qed.

Lemma accounted_Permutation w hs hs' :
  hs ≡ₚ hs' -> accounted w hs -> accounted w hs'.
Proof.
  intros Hp [Hc Hl]. split.
  - intros a d Ha. rewrite <- (handles_on_Permutation a hs hs' Hp). by apply Hc.
  - intros h a Hin. apply Hl. by rewrite Hp.
Qed.

Lemma handles_on_le_length a hs : handles_on a hs <= Z.of_nat (length hs).
Proof. unfold handles_on. pose proof (length_filter (fun h => Data h = HeapPtr a) hs). lia. Qed.

Lemma SharedString_eta h : {| Data := Data h |} = h.
Proof. by destruct h. Qed.

Lemma pool_ok_start (caller : gmap positive (list TChar)) : pool_ok (start caller).
Proof.
  split; simpl.
  - intros k a Hin. by apply not_elem_of_nil in Hin.
  - intros a d Ha. by rewrite lookup_empty in Ha.
  - apply NoDup_nil_2.
  - intros a1 a2 d1 d2 Ha. by rewrite lookup_empty in Ha.
Qed.

(** [AddString] on a pool in order, for handles that are accounted for. *)
Lemma AddString_ok w hs b Len q :
  pool_ok w -> accounted w hs ->
  load w (CallerBuf b) Len = Some q ->
  Len <> 2 ^ 32 - 1 -> Len < 2 ^ 32 ->
  Z.of_nat (length hs) < 2 ^ 32 - 1 ->
  exists a w', AddString (CallerBuf b) Len w = Some (HeapPtr a, w') /\
    pool_ok w' /\ accounted w' ({| Data := HeapPtr a |} :: hs) /\
    Caller w' = Caller w.
Proof.
  intros Hok Hacc Hl Hmax Hlt Hfew.
  destruct (record_dec w q Hok) as [(a & d & Ha & Hp)|Hno].
  - exists a, (hit_world a d w).
    split_and!; [by apply (AddString_hit w _ _ q)|by apply pool_ok_hit| |done].
    apply accounted_hit; [done..|].
    rewrite (acc_count w hs Hacc a d Ha).
    pose proof (handles_on_le_length a hs). lia.
  - eexists _, _.
    split_and!; [by apply (AddString_miss w _ _ q)|by apply pool_ok_miss| |done].
    by apply accounted_miss.
Qed.

Lemma accounted_empty w hs : accounted w hs -> accounted w ({| Data := GetEmpty |} :: hs).
Proof. by apply accounted_empty_cons. Qed.

Lemma construct_ok w hs s b C :
  pool_ok w -> accounted w hs ->
  source_ptr s = CallerBuf b -> content w s = Some C ->
  uint32_t (Z.of_nat (length C)) <> 2 ^ 32 - 1 ->
  Z.of_nat (length hs) < 2 ^ 32 - 1 ->
  exists h w', construct s w = Some (h, w') /\
    pool_ok w' /\ accounted w' (h :: hs) /\ Caller w' = Caller w.
Proof.
  intros Hok Hacc Hb Hc Hmax Hfew.
  assert (Hvia :
    construct s w = bind (AddString (source_ptr s) (uint32_t (Z.of_nat (length C))))
                         (fun r => ret {| Data := r |}) w ->
    exists h w', construct s w = Some (h, w') /\
      pool_ok w' /\ accounted w' (h :: hs) /\ Caller w' = Caller w).
  { intros Heq. pose proof (content_load w s C Hc) as Hl. rewrite Hb in *.
    destruct (AddString_ok w hs b _ _ Hok Hacc Hl Hmax)
      as (a & w' & Hrun & Hok' & Hacc' & Hcal); [apply uint32_t_range|done|].
    exists {| Data := HeapPtr a |}, w'. rewrite Heq. unfold bind. by rewrite Hrun. }
  destruct (decide (C = [])) as [->|Hne]; [|by apply Hvia, construct_AddString].
  pose proof (content_size w s [] Hc) as Hn.
  destruct s as [p|bs|Size p]; simpl in Hn.
  - exists {| Data := GetEmpty |}, w. split_and!; [|done|by apply accounted_empty|done].
    simpl. unfold SharedString_raw, GetData, strlen, bind.
    by destruct (chars_at w p) as [l|]; [rewrite Hn|].
  - exists {| Data := GetEmpty |}, w. split_and!; [|done|by apply accounted_empty|done].
    injection Hn as Hn. simpl. unfold SharedString_string, bind.
    by rewrite decide_True.
  - apply Hvia. injection Hn as Hn. simpl. unfold SharedString_literal.
    rewrite decide_False by lia. by replace (Size - 1) with 0 by lia.
Qed.

(** [Clear] releases the reference of a live handle. *)
Lemma Clear_ok w this rest :
  pool_ok w -> accounted w (this :: rest) ->
  exists w', Clear this w = Some (tt, w') /\
    pool_ok w' /\ accounted w' rest /\ Caller w' = Caller w.
Proof.
  intros Hok Hacc. destruct (Data this) as [|a] eqn:Hd.
  - exists w. split_and!; [|done| |done].
    + unfold Clear. rewrite Hd. by rewrite decide_False by (intros H; by apply H).
    + by apply (accounted_empty_middle w this [] rest).
  - destruct (acc_live w _ Hacc this a) as [d Ha]; [apply list_elem_of_here|done|].
    destruct (dtor_bound w [] this rest a d Hok Hacc Hd Ha)
      as [[Hmore Hrun]|[Hone (i & k & Hi & Hrun)]].
    + exists (keep_world a d w). split_and!; [done|by apply pool_ok_keep| |done].
      apply (accounted_keep w a d this []); [done..|].
      destruct (pool_records w Hok a d Ha) as [[_ _ _ Hrc] _]. lia.
    + exists (erase_world a i w).
      split_and!; [done|by apply (pool_ok_erase w a i k)| |done].
      by apply (accounted_erase w a d i this []).
Qed.

Lemma assign_view_ok w this rest v b C this' w' :
  pool_ok w -> accounted w (this :: rest) ->
  Z.of_nat (length (this :: rest)) < 2 ^ 32 - 1 ->
  sv_data v = CallerBuf b -> view w v = Some C ->
  uint32_t (sv_size v) <> 2 ^ 32 - 1 ->
  assign_view this v w = Some (this', w') ->
  pool_ok w' /\ accounted w' (this' :: rest) /\ Caller w' = Caller w.
Proof.
  intros Hok Hacc Hfew Hb Hv Hmax Hrun. simpl in Hfew.
  destruct (Clear_ok w this rest Hok Hacc) as (w1 & Hrun0 & Hok0 & Hacc0 & Hcal0).
  unfold assign_view, bind in Hrun. rewrite Hrun0 in Hrun.
  case_decide as Hz.
  - injection Hrun as <- <-. split_and!; [done| |done]. by apply accounted_empty.
  - pose proof (load_length _ _ _ _ Hv) as HlenC.
    assert (Hl : load w1 (CallerBuf b) (uint32_t (sv_size v))
                 = Some (take (Z.to_nat (uint32_t (sv_size v))) C)).
    { unfold view in Hv. rewrite Hb in Hv. unfold load, chars_at in *.
      rewrite Hcal0. destruct (Caller w !! b) as [l|]; [|done].
      case_decide as Hr; [|done]. injection Hv as <-.
      pose proof (uint32_t_range (sv_size v)).
      assert (uint32_t (sv_size v) <= sv_size v)
        by (unfold uint32_t; apply Z.mod_le; lia).
      rewrite decide_True by lia. f_equal. rewrite take_take. f_equal. lia. }
    rewrite Hb in Hrun.
    destruct (AddString_ok w1 rest b _ _ Hok0 Hacc0 Hl Hmax)
      as (a & w2 & Hrun1 & ? & ? & ?); [apply uint32_t_range|lia|].
    rewrite Hrun1 in Hrun. injection Hrun as <- <-.
    split_and!; [done..|congruence].
Qed.

(** Every call keeps the pool in order and the counters exact. *)
Lemma step_ok w hs w' hs' :
  step (w, hs) (w', hs') -> pool_ok w -> accounted w hs ->
  pool_ok w' /\ accounted w' hs' /\ Caller w' = Caller w.
Proof.
  intros Hstep. remember (w, hs) as st eqn:Est. remember (w', hs') as st' eqn:Est'.
  revert Est Est'.
  destruct Hstep as
    [w0 hs0 h w0' Hrun
    |w0 hs0 s b C h w0' Hb Hc Hmax Hfew Hrun
    |w0 hs0 src h w0' Hin Hrun
    |w0 hs0 src rest h src' w0' Hp Hrun
    |w0 hs0 h rest w0' Hp Hrun
    |w0 hs0 this rest src this' w0' Hp Hin Hrun
    |w0 hs0 this src rest this' src' w0' Hp Hrun
    |w0 hs0 this rest this' src' w0' Hp Hrun
    |w0 hs0 this rest v b C this' w0' Hp Hb Hv Hmax Hfew Hrun
    |w0 hs0 this rest bs b C this' w0' Hp Hb Hv Hmax Hfew Hrun
    |w0 hs0 this rest b n C this' w0' Hp Hn Hv Hmax Hfew Hrun
    |w0 hs0 this rest Size b C this' w0' Hp Hv Hmax Hfew Hrun];
    intros [= -> ->] [= -> <-] Hok Hacc.
  - injection Hrun as <- <-. split_and!; [done| |done]. by apply accounted_empty.
  - destruct (construct_ok w hs s b C Hok Hacc Hb Hc Hmax Hfew)
      as (h0 & w1 & Hrun0 & ? & ? & ?).
    rewrite Hrun0 in Hrun. by injection Hrun as <- <-.
  - unfold SharedString_copy, bind in Hrun. case_decide; [|done].
    injection Hrun as <- <-. split_and!; [done| |done]. by apply accounted_empty.
  - injection Hrun as <- <- <-. split_and!; [done| |done].
    rewrite SharedString_eta.
    apply (accounted_Permutation w ({| Data := GetEmpty |} :: src :: rest));
      [apply Permutation_swap|].
    apply accounted_empty. by apply (accounted_Permutation w hs).
  - apply (accounted_Permutation w hs (h :: rest) Hp) in Hacc.
    destruct (Clear_ok w h rest Hok Hacc) as (w1 & Hrun0 & ? & ? & ?).
    unfold SharedString_dtor in Hrun. rewrite Hrun0 in Hrun.
    by injection Hrun as <-.
  - apply (accounted_Permutation w hs (this :: rest) Hp) in Hacc.
    unfold assign_copy in Hrun. case_decide.
    + destruct (Clear_ok w this rest Hok Hacc) as (w1 & Hrun0 & ? & ? & ?).
      unfold bind in Hrun. rewrite Hrun0 in Hrun. case_decide; [|done].
      injection Hrun as <- <-. split_and!; [done| |done]. by apply accounted_empty.
    + by injection Hrun as <- <-.
  - apply (accounted_Permutation w hs (this :: src :: rest) Hp) in Hacc.
    unfold assign_move in Hrun. case_decide.
    + destruct (Clear_ok w this (src :: rest) Hok Hacc) as (w1 & Hrun0 & ? & ? & ?).
      unfold bind in Hrun. rewrite Hrun0 in Hrun.
      injection Hrun as <- <- <-. split_and!; [done| |done].
      rewrite SharedString_eta.
      apply (accounted_Permutation w1 ({| Data := GetEmpty |} :: src :: rest));
        [apply Permutation_swap|].
      by apply accounted_empty.
    + by injection Hrun as <- <- <-.
  - apply (accounted_Permutation w hs (this :: rest) Hp) in Hacc.
    unfold assign_move in Hrun. rewrite decide_False in Hrun by (intros H; by apply H).
    by injection Hrun as <- <- <-.
  - assert (Hlen : length hs = length (this :: rest)) by (by rewrite Hp).
    apply (accounted_Permutation w hs (this :: rest) Hp) in Hacc.
    apply (assign_view_ok w this rest v b C); [done|done|by rewrite <- Hlen|done..].
  - assert (Hlen : length hs = length (this :: rest)) by (by rewrite Hp).
    apply (accounted_Permutation w hs (this :: rest) Hp) in Hacc.
    apply (assign_view_ok w this rest
             {| sv_data := c_str bs; sv_size := size bs |} b C); [done|done|by rewrite <- Hlen|done..].
  - assert (Hlen : length hs = length (this :: rest)) by (by rewrite Hp).
    apply (accounted_Permutation w hs (this :: rest) Hp) in Hacc.
    unfold assign_raw, bind in Hrun. rewrite Hn in Hrun.
    apply (assign_view_ok w this rest
             {| sv_data := CallerBuf b; sv_size := n |} b C); [done|done|by rewrite <- Hlen|done..].
  - assert (Hlen : length hs = length (this :: rest)) by (by rewrite Hp).
    apply (accounted_Permutation w hs (this :: rest) Hp) in Hacc.
    apply (assign_view_ok w this rest
             {| sv_data := CallerBuf b; sv_size := Size |} b C); [done|done|by rewrite <- Hlen|done..].
Qed.

Lemma reachable_ok (caller : gmap positive (list TChar)) w hs :
  reachable caller w hs -> pool_ok w /\ accounted w hs /\ Caller w = caller.
Proof.
  induction 1 as [|w hs w' hs' _ (Hok & Hacc & Hcal) Hstep].
  - split_and!; [apply pool_ok_start|apply accounted_start|done].
  - destruct (step_ok w hs w' hs' Hstep Hok Hacc) as (? & ? & ?).
    split_and!; [done..|congruence].
Qed.

End Calls.

Section Mutex.
Context {TChar : Type} `{!CharType TChar}.
Implicit Types (w : World TChar) (h : SharedString) (hs : list SharedString).

Lemma lock_depth_app t1 t2 : lock_depth (t1 ++ t2) = lock_depth t1 + lock_depth t2.
Proof.
  induction t1 as [|e t1 IH]; simpl; [lia|]. destruct e; lia.
Qed.

(** Inversion of a run: every [match] of the code is taken apart. *)
Ltac run_cases :=
  repeat (case_match; simplify_eq/=); simplify_eq/=.

Lemma AddString_lock w Str Len r w' :
  AddString Str Len w = Some (r, w') ->
  lock_depth (Trace w') = lock_depth (Trace w).
Proof.
  unfold AddString, bind, log, Storage_find, IncRefCount, new, SharedData_ctor,
    Storage_emplace, set_Heap, set_Storage, ret.
  intros H. run_cases; rewrite ?lock_depth_app; simpl; lia.
Qed.

Lemma RemoveString_lock w p w' :
  RemoveString p w = Some (tt, w') ->
  lock_depth (Trace w') = lock_depth (Trace w).
Proof.
  unfold RemoveString, bind, log, DecRefCount, GetLength, Storage_find,
    Storage_erase, undefined, ret.
  intros H. run_cases; rewrite ?lock_depth_app; simpl; lia.
Qed.

Lemma Clear_lock w this w' :
  Clear this w = Some (tt, w') -> lock_depth (Trace w') = lock_depth (Trace w).
Proof.
  unfold Clear. case_decide; [apply RemoveString_lock|by intros [= <-]].
Qed.

Lemma construct_lock w s h w' :
  construct s w = Some (h, w') -> lock_depth (Trace w') = lock_depth (Trace w).
Proof.
  destruct s as [p|bs|Size p]; simpl;
    unfold SharedString_raw, SharedString_string, SharedString_literal,
      GetData, strlen, bind, ret; intros H.
  - destruct (chars_at w p) as [l|]; [|done].
    destruct (traits_length l) as [n|]; [|done].
    case_decide; [by injection H as <- <-|].
    destruct (AddString _ _ w) as [[r w1]|] eqn:Hadd; [|done].
    injection H as <- <-. by apply AddString_lock in Hadd.
  - case_decide; [by injection H as <- <-|].
    destruct (AddString _ _ w) as [[r w1]|] eqn:Hadd; [|done].
    injection H as <- <-. by apply AddString_lock in Hadd.
  - case_decide; [by injection H as <- <-|].
    destruct (AddString _ _ w) as [[r w1]|] eqn:Hadd; [|done].
    injection H as <- <-. by apply AddString_lock in Hadd.
Qed.

Lemma assign_view_lock w this v this' w' :
  assign_view this v w = Some (this', w') ->
  lock_depth (Trace w') = lock_depth (Trace w).
Proof.
  unfold assign_view, bind, ret. intros H.
  destruct (Clear this w) as [[[] w1]|] eqn:Hc; [|done].
  apply Clear_lock in Hc. case_decide; [injection H as <- <-; lia|].
  destruct (AddString _ _ w1) as [[r w2]|] eqn:Hadd; [|done].
  injection H as <- <-. apply AddString_lock in Hadd. lia.
Qed.

(** No call returns with the mutex held. *)
Lemma step_lock w hs w' hs' :
  step (w, hs) (w', hs') -> lock_depth (Trace w') = lock_depth (Trace w).
Proof.
  intros Hstep. remember (w, hs) as st eqn:Est. remember (w', hs') as st' eqn:Est'.
  revert Est Est'.
  destruct Hstep as
    [w0 hs0 h w0' Hrun
    |w0 hs0 s b C h w0' Hb Hc Hmax Hfew Hrun
    |w0 hs0 src h w0' Hin Hrun
    |w0 hs0 src rest h src' w0' Hp Hrun
    |w0 hs0 h rest w0' Hp Hrun
    |w0 hs0 this rest src this' w0' Hp Hin Hrun
    |w0 hs0 this src rest this' src' w0' Hp Hrun
    |w0 hs0 this rest this' src' w0' Hp Hrun
    |w0 hs0 this rest v b C this' w0' Hp Hb Hv Hmax Hfew Hrun
    |w0 hs0 this rest bs b C this' w0' Hp Hb Hv Hmax Hfew Hrun
    |w0 hs0 this rest b n C this' w0' Hp Hn Hv Hmax Hfew Hrun
    |w0 hs0 this rest Size b C this' w0' Hp Hv Hmax Hfew Hrun];
    intros [= -> ->] [= -> <-].
  - by injection Hrun as <- <-.
  - by apply construct_lock in Hrun.
  - unfold SharedString_copy, bind in Hrun. case_decide; [|done].
    by injection Hrun as <- <-.
  - by injection Hrun as <- <- <-.
  - by apply Clear_lock in Hrun.
  - unfold assign_copy, bind in Hrun. case_decide; [|by injection Hrun as <- <-].
    destruct (Clear this w) as [[[] w1]|] eqn:Hc; [|done].
    apply Clear_lock in Hc. case_decide; [|done]. by injection Hrun as <- <-.
  - unfold assign_move, bind in Hrun. case_decide; [|by injection Hrun as <- <- <-].
    destruct (Clear this w) as [[[] w1]|] eqn:Hc; [|done].
    apply Clear_lock in Hc. by injection Hrun as <- <- <-.
  - unfold assign_move in Hrun. rewrite decide_False in Hrun by (intros H; by apply H).
    by injection Hrun as <- <- <-.
  - by apply assign_view_lock in Hrun.
  - by apply assign_view_lock in Hrun.
  - unfold assign_raw, bind in Hrun. rewrite Hn in Hrun.
    by apply assign_view_lock in Hrun.
  - by apply assign_view_lock in Hrun.
Qed.

Lemma reachable_lock (caller : gmap positive (list TChar)) w hs :
  reachable caller w hs -> lock_depth (Trace w) = 0.
Proof.
  induction 1 as [|w hs w' hs' _ IH Hstep]; [done|].
  by rewrite (step_lock w hs w' hs' Hstep).
Qed.

End Mutex.

Section Claims.
Context {TChar : Type} `{!CharType TChar}.
Implicit Types (w : World TChar) (d : SharedData TChar) (q C : list TChar).
Implicit Types (h : SharedString) (hs : list SharedString) (s : Source).

(** What a source in caller memory denotes depends on caller memory only. *)
Lemma content_caller w w' s b :
  source_ptr s = CallerBuf b -> Caller w' = Caller w ->
  content w' s = content w s.
Proof.
  intros Hb Hc. unfold content, load.
  assert (Hch : chars_at w' (source_ptr s) = chars_at w (source_ptr s))
    by (rewrite Hb; simpl; by rewrite Hc).
  assert (Hsz : source_size w' s = source_size w s).
  { destruct s; simpl in *; [|done..]. by rewrite Hch. }
  by rewrite Hsz, Hch.
Qed.

Lemma interned_length C :
  Z.of_nat (length (interned C)) = uint32_t (Z.of_nat (length C)).
Proof.
  unfold interned. rewrite length_take.
  pose proof (uint32_t_range (Z.of_nat (length C))).
  assert (uint32_t (Z.of_nat (length C)) <= Z.of_nat (length C))
    by (unfold uint32_t; apply Z.mod_le; lia).
  lia.
Qed.

Lemma interned_small C : Z.of_nat (length C) < 2 ^ 32 -> interned C = C.
Proof.
  intros H. unfold interned. rewrite uint32_t_small by lia.
  rewrite Nat2Z.id. apply firstn_all.
Qed.

(** X16. Interning, for a program that keeps to the conditions of [step]
    (one thread, every string left alone once a handle is built from it, no
    length that is 2^32 - 1 modulo 2^32, fewer than 2^32 - 1 handles): in
    every state such a program reaches, a handle constructed from a
    non-empty content [C] is bound to a record that holds it; a second
    handle constructed from [C], at once or in any later such state in
    which that record is alive, is bound to the same record: the lookup
    hits, the counter of the record is incremented and nothing is
    allocated. No other record holds the content. *)
Theorem interning (caller : gmap positive (list TChar)) w hs s1 s2 b1 b2 C :
  reachable caller w hs ->
  source_ptr s1 = CallerBuf b1 -> source_ptr s2 = CallerBuf b2 ->
  content w s1 = Some C -> content w s2 = Some C -> C <> [] ->
  uint32_t (Z.of_nat (length C)) <> 2 ^ 32 - 1 ->
  exists a w1 d1,
    construct s1 w = Some ({| Data := HeapPtr a |}, w1) /\
    Heap w1 !! a = Some d1 /\ payload d1 = interned C /\
    (exists w2, construct s2 w1 = Some ({| Data := HeapPtr a |}, w2) /\
       Heap w2 = <[a := IncRefCount_data d1]> (Heap w1)) /\
    forall w' hs' d', reachable caller w' hs' -> Heap w' !! a = Some d' ->
      payload d' = interned C ->
      (forall a2 d2, Heap w' !! a2 = Some d2 -> payload d2 = interned C -> a2 = a) /\
      exists w2,
        construct s2 w' = Some ({| Data := HeapPtr a |}, w2) /\
        Heap w2 = <[a := IncRefCount_data d']> (Heap w') /\
        Storage w2 = Storage w' /\
        Trace w2 = Trace w' ++ [EvLock; EvInc a; EvUnlock] /\
        pool_ok w2 /\
        forall a2 d2, Heap w2 !! a2 = Some d2 -> payload d2 = interned C -> a2 = a.
Proof.
  intros Hreach Hb1 Hb2 Hc1 Hc2 Hne Hmax.
  destruct (reachable_ok caller w hs Hreach) as (Hok & _ & Hcal).
  assert (Hlater : forall a w' d', pool_ok w' -> Heap w' !! a = Some d' ->
      payload d' = interned C -> content w' s2 = Some C ->
      exists w2,
        construct s2 w' = Some ({| Data := HeapPtr a |}, w2) /\
        Heap w2 = <[a := IncRefCount_data d']> (Heap w') /\
        Storage w2 = Storage w' /\
        Trace w2 = Trace w' ++ [EvLock; EvInc a; EvUnlock] /\
        pool_ok w2 /\
        forall a2 d2, Heap w2 !! a2 = Some d2 -> payload d2 = interned C -> a2 = a).
  { intros a w' d' Hok' Ha' Hp' Hc'.
    destruct (construct_cases w' s2 b2 C Hok' Hb2 Hc' Hne Hmax)
      as [(a0 & d0 & Ha0 & Hp0 & Hrun)|[Hno _]]; [|by destruct (Hno a d' Ha')].
    assert (a0 = a) as -> by (apply (pool_canonical w' Hok' a0 a d0 d'); congruence).
    assert (d0 = d') as -> by congruence.
    exists (hit_world a d' w'). split_and!; [done..| |].
    - by apply pool_ok_hit.
    - intros a2 d2 Ha2 Hp2.
      apply (pool_canonical _ (pool_ok_hit w' a d' Hok' Ha') a2 a d2 (IncRefCount_data d'));
        [done|apply lookup_insert_eq|]. by rewrite Hp2. }
  assert (Hreached : forall a w' hs' d', reachable caller w' hs' ->
      Heap w' !! a = Some d' -> payload d' = interned C ->
      (forall a2 d2, Heap w' !! a2 = Some d2 -> payload d2 = interned C -> a2 = a) /\
      exists w2,
        construct s2 w' = Some ({| Data := HeapPtr a |}, w2) /\
        Heap w2 = <[a := IncRefCount_data d']> (Heap w') /\
        Storage w2 = Storage w' /\
        Trace w2 = Trace w' ++ [EvLock; EvInc a; EvUnlock] /\
        pool_ok w2 /\
        forall a2 d2, Heap w2 !! a2 = Some d2 -> payload d2 = interned C -> a2 = a).
  { intros a w' hs' d' Hreach' Ha' Hp'.
    destruct (reachable_ok caller w' hs' Hreach') as (Hok' & _ & Hcal'). split.
    - intros a2 d2 Ha2 Hp2. apply (pool_canonical w' Hok' a2 a d2 d'); congruence.
    - apply Hlater; [done..|].
      rewrite (content_caller w _ s2 b2); [done..|congruence]. }
  destruct (construct_cases w s1 b1 C Hok Hb1 Hc1 Hne Hmax)
    as [(a & d & Ha & Hp & Hrun)|[Hno Hrun]].
  - exists a, (hit_world a d w), (IncRefCount_data d).
    split_and!; [done|apply lookup_insert_eq|done| |by apply Hreached].
    destruct (Hlater a (hit_world a d w) (IncRefCount_data d))
      as (w2 & ? & ? & _); [by apply pool_ok_hit|apply lookup_insert_eq|done| |by exists w2].
    by rewrite (content_caller w _ s2 b2).
  - pose proof (content_load w s1 C Hc1) as Hl. rewrite Hb1 in Hl.
    assert (Hok1 : pool_ok (miss_world (CallerBuf b1) (uint32_t (Z.of_nat (length C)))
                              (interned C) w))
      by (apply pool_ok_miss; [done..|apply uint32_t_range|done]).
    assert (Hp1 : payload {| RefCount := 1; Length := uint32_t (Z.of_nat (length C));
                             Buffer := interned C ++ [TChar_0] |} = interned C)
      by (apply payload_ctor; by rewrite interned_length).
    eexists _, _, _. split_and!; [exact Hrun|apply lookup_insert_eq|exact Hp1| |by apply Hreached].
    edestruct (Hlater (fresh (dom (Heap w)))) as (w2 & ? & ? & _);
      [exact Hok1|apply lookup_insert_eq|exact Hp1| |by exists w2].
    by rewrite (content_caller w _ s2 b2).
Qed.


(** X18. Release, for a program that keeps to the conditions of [step]
    (one thread, every string left alone once a handle is built from it):
    in every state such a program reaches the mutex is free when
    [RemoveString] is called on a record of the heap, and the first thing
    it does is to decrement the counter. When the result is not zero
    nothing else happens: the table is as it was. When it is zero the mutex
    is taken, the entry whose key reads the content of the record is
    erased, the record is freed (by the [delete] of [Storage_erase], taken
    as a free), and the mutex is released. *)
Theorem RemoveString_release (caller : gmap positive (list TChar)) w hs a d :
  reachable caller w hs -> Heap w !! a = Some d ->
  lock_depth (Trace w) = 0 /\
  exists w', RemoveString (HeapPtr a) w = Some (tt, w') /\
    lock_depth (Trace w') = 0 /\
    (uint32_t (RefCount d - 1) <> 0 ->
       Trace w' = Trace w ++ [EvDec a] /\
       Storage w' = Storage w /\
       Heap w' = <[a := DecRefCount_data d]> (Heap w)) /\
    (uint32_t (RefCount d - 1) = 0 ->
       exists i k,
         Storage w !! i = Some (k, a) /\ view w k = Some (payload d) /\
         Trace w' = Trace w ++ [EvDec a; EvLock; EvDelete a; EvUnlock] /\
         Storage w' = delete i (Storage w) /\
         Heap w' = delete a (Heap w)).
Proof.
  intros Hreach Ha. destruct (reachable_ok caller w hs Hreach) as (Hok & _ & _).
  pose proof (reachable_lock caller w hs Hreach) as Hfree. split; [done|].
  destruct (decide (uint32_t (RefCount d - 1) = 0)) as [Hz|Hnz].
  - destruct (RemoveString_last w a d Hok Ha Hz) as (i & k & Hi & Hrun).
    exists (erase_world a i w). split_and!; [done| | |].
    + by rewrite (RemoveString_lock w _ _ Hrun).
    + intros Hnz. by destruct Hnz.
    + intros _. exists i, k. split_and!; [done| |done..].
      apply list_elem_of_lookup_2 in Hi.
      destruct (pool_entries w Hok k a Hi) as (b & d0 & _ & Hd0 & Hv).
      congruence.
  - pose proof (RemoveString_keep w a d Ha Hnz) as Hrun.
    exists (keep_world a d w). split_and!; [done| | |done].
    + by rewrite (RemoveString_lock w _ _ Hrun).
    + intros _. by split_and!.
Qed.



(** ** Empty content *)

(** The default constructor, the constructors from an empty
    null-terminated or owned string and the assignment of an empty view
    bind to [EmptyBuffer]; the constructors change nothing, and the
    assignment does nothing but release the reference the handle had. *)
Lemma empty_content_binds_EmptyBuffer w :
  SharedString_default w = Some ({| Data := GetEmpty |}, w) /\
  (forall p l, chars_at w p = Some l -> traits_length l = Some 0 ->
     SharedString_raw p w = Some ({| Data := GetEmpty |}, w)) /\
  (forall bs, size bs = 0 ->
     SharedString_string bs w = Some ({| Data := GetEmpty |}, w)) /\
  (forall this v, sv_size v = 0 ->
     assign_view this v w
     = bind (Clear this) (fun _ => ret {| Data := GetEmpty |}) w) /\
  Clear {| Data := GetEmpty |} w = Some (tt, w).
Proof.
  split_and!.
  - done.
  - intros p l Hp Hl. unfold SharedString_raw, GetData, strlen, bind.
    by rewrite Hp, Hl.
  - intros bs Hz. unfold SharedString_string, bind. by rewrite decide_True.
  - intros this v Hz. unfold assign_view, bind.
    destruct (Clear this w) as [[[] w']|]; [|done]. by rewrite decide_True.
  - done.
Qed.

(** [EmptyBuffer] has no counter to write: the code never reaches these. *)
Lemma EmptyBuffer_not_counted w :
  IncRefCount EmptyBufferPtr w = None /\ DecRefCount EmptyBufferPtr w = None.
Proof. done. Qed.

(** ** Copies *)

Lemma CopyRef_undeclared w p : CopyRef p w = None.
Proof. done. Qed.

(** The bodies of the copy operations where they do not call [CopyRef]:
    from a handle on [EmptyBuffer], and between two handles on the same
    record. These are paths of the text: no program that copies a handle
    is well-formed. *)
Lemma copy_without_CopyRef w this src :
  SharedString_copy {| Data := GetEmpty |} w = Some ({| Data := GetEmpty |}, w) /\
  (Data src = Data this -> assign_copy this src w = Some (this, w)) /\
  (Data src = GetEmpty -> Data this <> GetEmpty ->
     assign_copy this src w
     = bind (Clear this) (fun _ => ret {| Data := GetEmpty |}) w).
Proof.
  split_and!.
  - done.
  - intros Heq. unfold assign_copy.
    by rewrite decide_False by (intros H; by apply H).
  - intros Hs Ht. unfold assign_copy. rewrite decide_True by congruence.
    unfold bind. destruct (Clear this w) as [[[] w']|]; [|done].
    by rewrite decide_True.
Qed.

(** ** What a constructor stores and what [Str] returns *)

Lemma AddString_reads w b Len q :
  pool_ok w -> load w (CallerBuf b) Len = Some q ->
  Len <> 2 ^ 32 - 1 -> Len < 2 ^ 32 ->
  exists a w' d', AddString (CallerBuf b) Len w = Some (HeapPtr a, w') /\
    pool_ok w' /\ Heap w' !! a = Some d' /\ payload d' = q.
Proof.
  intros Hok Hl Hmax Hlt.
  destruct (record_dec w q Hok) as [(a & d & Ha & Hp)|Hno].
  - exists a, (hit_world a d w), (IncRefCount_data d).
    split_and!; [by apply (AddString_hit w _ _ q)|by apply pool_ok_hit|
                 apply lookup_insert_eq|done].
  - eexists _, _, _.
    split_and!; [by apply (AddString_miss w _ _ q)|by apply pool_ok_miss|
                 apply lookup_insert_eq|].
    apply payload_ctor. by rewrite (load_length _ _ _ _ Hl).
Qed.

Lemma construct_reads w s b C :
  pool_ok w -> source_ptr s = CallerBuf b -> content w s = Some C ->
  uint32_t (Z.of_nat (length C)) <> 2 ^ 32 - 1 ->
  exists h w' d', construct s w = Some (h, w') /\ pool_ok w' /\
    deref w' (Data h) = Some d' /\ payload d' = interned C /\
    Length d' = uint32_t (Z.of_nat (length C)) /\
    Str h w' = Some (interned C, w').
Proof.
  intros Hok Hb Hc Hmax.
  assert (Hvia :
    construct s w = bind (AddString (source_ptr s) (uint32_t (Z.of_nat (length C))))
                         (fun r => ret {| Data := r |}) w ->
    exists h w' d', construct s w = Some (h, w') /\ pool_ok w' /\
      deref w' (Data h) = Some d' /\ payload d' = interned C /\
      Length d' = uint32_t (Z.of_nat (length C)) /\
      Str h w' = Some (interned C, w')).
  { intros Heq. pose proof (content_load w s C Hc) as Hl. rewrite Hb in *.
    destruct (AddString_reads w b _ _ Hok Hl Hmax) as (a & w' & d' & Hrun & Hok' & Ha & Hp).
    { apply uint32_t_range. }
    destruct (pool_records w' Hok' a d' Ha) as [Hrec _].
    exists {| Data := HeapPtr a |}, w', d'. rewrite Heq. unfold bind. rewrite Hrun.
    split_and!; [done..| |].
    - rewrite (rec_Length d' Hrec), Hp. apply interned_length.
    - rewrite <- Hp. by apply Str_bound. }
  destruct (decide (C = [])) as [->|Hne]; [|by apply Hvia, construct_AddString].
  pose proof (content_size w s [] Hc) as Hn.
  destruct s as [p|bs|Size p]; simpl in Hn.
  - exists {| Data := GetEmpty |}, w, EmptyBuffer. split_and!; [|done..].
    simpl. unfold SharedString_raw, GetData, strlen, bind.
    by destruct (chars_at w p) as [l|]; [rewrite Hn|].
  - exists {| Data := GetEmpty |}, w, EmptyBuffer. split_and!; [|done..].
    injection Hn as Hn. simpl. unfold SharedString_string, bind.
    by rewrite decide_True.
  - apply Hvia. injection Hn as Hn. simpl. unfold SharedString_literal.
    rewrite decide_False by lia. by replace (Size - 1) with 0 by lia.
Qed.

(** X19. The length is truncated to 32 bits: for a program that keeps to
    the conditions of [step], and a content whose length is not 2^32 - 1
    modulo 2^32, the record the handle is bound to has the length modulo
    2^32 and [Str] returns that many elements; nothing is rejected. *)
Theorem Length_truncated (caller : gmap positive (list TChar)) w hs s b C :
  reachable caller w hs -> source_ptr s = CallerBuf b -> content w s = Some C ->
  Z.of_nat (length C) mod 2 ^ 32 <> 2 ^ 32 - 1 ->
  exists h w' d', construct s w = Some (h, w') /\
    deref w' (Data h) = Some d' /\
    Length d' = Z.of_nat (length C) mod 2 ^ 32 /\
    Str h w' = Some (take (Z.to_nat (Z.of_nat (length C) mod 2 ^ 32)) C, w').
Proof.
  intros Hreach Hb Hc Hmax. destruct (reachable_ok caller w hs Hreach) as (Hok & _ & _).
  destruct (construct_reads w s b C Hok Hb Hc Hmax)
    as (h & w' & d' & Hrun & _ & Hd & _ & Hlen & Hstr).
  by exists h, w', d'.
Qed.

(** C7, as the code has it, for contents shorter than 2^32 - 1 and a
    program that keeps to the conditions of [step] (one thread, every
    string left alone once a handle is built from it): the constructor of a
    record copies the elements of the content, appends [TChar(0)] and sets
    the counter to 1; the handle constructed from the content is bound to a
    record that holds it, a new one when no record did, and [Str] returns
    the content and changes nothing. *)
Theorem Str_roundtrip (caller : gmap positive (list TChar)) w hs s b C :
  reachable caller w hs -> source_ptr s = CallerBuf b -> content w s = Some C ->
  C <> [] -> Z.of_nat (length C) < 2 ^ 32 - 1 ->
  let Len := Z.of_nat (length C) in
  (forall this,
     SharedData_ctor this (BufferSize Len) (source_ptr s) Len w
     = Some (tt, set_Heap (<[this := {| RefCount := 1; Length := Len;
                                        Buffer := C ++ [TChar_0] |}]> (Heap w)) w)) /\
  exists a w' d', construct s w = Some ({| Data := HeapPtr a |}, w') /\
    Heap w' !! a = Some d' /\
    Buffer d' = C ++ [TChar_0] /\ Length d' = Len /\
    ((forall a0 d0, Heap w !! a0 = Some d0 -> payload d0 <> C) ->
       a = fresh (dom (Heap w)) /\ RefCount d' = 1 /\
       Trace w' = Trace w ++ [EvLock; EvNew a (BufferSize Len); EvUnlock]) /\
    Str {| Data := HeapPtr a |} w' = Some (C, w').
Proof.
  intros Hreach Hb Hc Hne Hlt Len.
  destruct (reachable_ok caller w hs Hreach) as (Hok & _ & _).
  assert (Hu : uint32_t Len = Len) by (apply uint32_t_small; unfold Len; lia).
  assert (Hint : interned C = C) by (apply interned_small; lia).
  pose proof (content_load w s C Hc) as Hl. fold Len in Hl. rewrite Hu, Hint in Hl.
  split.
  { intros this. unfold SharedData_ctor. rewrite Hl.
    by rewrite decide_True by (apply BufferSize_fits; unfold Len; lia). }
  destruct (construct_cases w s b C Hok Hb Hc Hne)
    as [(a & d & Ha & Hp & Hrun)|[Hno Hrun]].
  { fold Len. rewrite Hu. lia. }
  - rewrite Hint in Hp.
    destruct (pool_records w Hok a d Ha) as [[Hbuf Hlen Hlr Hrc] _].
    exists a, (hit_world a d w), (IncRefCount_data d).
    split_and!; [done|apply lookup_insert_eq| | | |].
    + simpl. by rewrite Hbuf, Hp.
    + simpl. by rewrite Hlen, Hp.
    + intros Hnone. by destruct (Hnone a d Ha).
    + rewrite <- Hp.
      apply (Str_bound (hit_world a d w) a (IncRefCount_data d));
        [apply lookup_insert_eq|].
      destruct (pool_records _ (pool_ok_hit w a d Hok Ha) a (IncRefCount_data d))
        as [Hrec _]; [apply lookup_insert_eq|done].
  - fold Len in Hrun. rewrite Hu, Hint in Hrun.
    eexists _, _, _. split_and!; [exact Hrun|apply lookup_insert_eq|done..| |].
    + intros _. by split_and!.
    + set (dn := {| RefCount := 1; Length := Len; Buffer := C ++ [TChar_0] |}).
      assert (Hpn : payload dn = C) by (by apply payload_ctor).
      rewrite <- Hpn at 2. apply Str_bound; [apply lookup_insert_eq|].
      split; rewrite ?Hpn; simpl; [done|done|unfold Len; lia|lia].
Qed.

(** A content of 2^32 elements is interned as the empty string. *)
Lemma truncated_to_nothing (caller : gmap positive (list TChar)) b C :
  caller !! b = Some (C ++ [TChar_0]) -> Z.of_nat (length C) = 2 ^ 32 ->
  content (start caller) (Owned {| c_str := CallerBuf b; size := 2 ^ 32 |}) = Some C /\
  C <> [] /\
  exists h w', construct (Owned {| c_str := CallerBuf b; size := 2 ^ 32 |}) (start caller)
               = Some (h, w') /\
    Str h w' = Some ([], w').
Proof.
  intros Hb Hlen.
  assert (Hc : content (start caller) (Owned {| c_str := CallerBuf b; size := 2 ^ 32 |})
               = Some C).
  { unfold content, source_size, source_ptr, c_str, size, load, chars_at, start, Caller.
    rewrite Hb. rewrite length_app, Nat2Z.inj_add, Hlen.
    rewrite decide_True by (simpl length; lia).
    rewrite <- Hlen, Nat2Z.id. f_equal. apply take_app_length. }
  split; [done|]. split.
  { intros ->. simpl in Hlen. lia. }
  destruct (construct_reads (start caller)
              (Owned {| c_str := CallerBuf b; size := 2 ^ 32 |}) b C
              (pool_ok_start caller) eq_refl Hc)
    as (h & w' & d' & Hrun & _ & _ & _ & _ & Hstr).
  { rewrite Hlen. unfold uint32_t. rewrite Z.mod_same by lia. lia. }
  exists h, w'. split; [done|]. rewrite Hstr. do 2 f_equal.
  unfold interned. rewrite Hlen. unfold uint32_t. rewrite Z.mod_same by lia.
  apply take_0.
Qed.

End Claims.

Lemma interning_witness :
  exists a w1 d1,
    construct (Raw (CallerBuf 1)) w_ab = Some ({| Data := HeapPtr a |}, w1) /\
    Heap w1 !! a = Some d1 /\ payload d1 = interned (chars "ab") /\
    (exists w2, construct (Owned {| c_str := CallerBuf 2; size := 2 |}) w1
                = Some ({| Data := HeapPtr a |}, w2) /\
       Heap w2 = <[a := IncRefCount_data d1]> (Heap w1)) /\
    forall w' hs' d', reachable caller_ab w' hs' -> Heap w' !! a = Some d' ->
      payload d' = interned (chars "ab") ->
      (forall a2 d2, Heap w' !! a2 = Some d2 ->
         payload d2 = interned (chars "ab") -> a2 = a) /\
      exists w2,
        construct (Owned {| c_str := CallerBuf 2; size := 2 |}) w'
        = Some ({| Data := HeapPtr a |}, w2) /\
        Heap w2 = <[a := IncRefCount_data d']> (Heap w') /\
        Storage w2 = Storage w' /\
        Trace w2 = Trace w' ++ [EvLock; EvInc a; EvUnlock] /\
        pool_ok w2 /\
        forall a2 d2, Heap w2 !! a2 = Some d2 ->
          payload d2 = interned (chars "ab") -> a2 = a.
Proof.
  apply (interning caller_ab w_ab [] (Raw (CallerBuf 1))
           (Owned {| c_str := CallerBuf 2; size := 2 |}) 1 2 (chars "ab")).
  - apply reachable_start.
  - reflexivity.
  - reflexivity.
  - vm_compute. reflexivity.
  - vm_compute. reflexivity.
  - discriminate.
  - vm_compute. discriminate.
Defined.

(** The two worlds are those the constructors of the code produce. *)
Example w_two_run :
  bind (construct (Raw (CallerBuf 1)))
       (fun a => bind (construct (Owned {| c_str := CallerBuf 2; size := 2 |}))
                      (fun b => ret (a, b))) w_ab
  = Some (({| Data := HeapPtr 1 |}, {| Data := HeapPtr 1 |}), w_two).
Proof. vm_compute. reflexivity. Qed.

Lemma reachable_w_two :
  reachable caller_ab w_two [{| Data := HeapPtr 1 |}; {| Data := HeapPtr 1 |}].
Proof.
  apply (reachable_step caller_ab w_one [{| Data := HeapPtr 1 |}]).
  - apply (reachable_step caller_ab w_ab []); [apply reachable_start|].
    apply (step_construct w_ab [] (Raw (CallerBuf 1)) 1 (chars "ab"));
      [reflexivity|vm_compute; reflexivity|vm_compute; discriminate|
       vm_compute; reflexivity|vm_compute; reflexivity].
  - apply (step_construct w_one _ (Owned {| c_str := CallerBuf 2; size := 2 |})
             2 (chars "ab"));
      [reflexivity|vm_compute; reflexivity|vm_compute; discriminate|
       vm_compute; reflexivity|vm_compute; reflexivity].
Qed.


Lemma RemoveString_release_witness :
  lock_depth (Trace w_two) = 0 /\
  exists w', RemoveString (HeapPtr 1) w_two = Some (tt, w') /\
    lock_depth (Trace w') = 0 /\
    (uint32_t (RefCount (IncRefCount_data ab_1) - 1) <> 0 ->
       Trace w' = Trace w_two ++ [EvDec 1] /\
       Storage w' = Storage w_two /\
       Heap w' = <[1%positive := DecRefCount_data (IncRefCount_data ab_1)]> (Heap w_two)) /\
    (uint32_t (RefCount (IncRefCount_data ab_1) - 1) = 0 ->
       exists i k,
         Storage w_two !! i = Some (k, 1%positive) /\
         view w_two k = Some (payload (IncRefCount_data ab_1)) /\
         Trace w' = Trace w_two ++ [EvDec 1; EvLock; EvDelete 1; EvUnlock] /\
         Storage w' = delete i (Storage w_two) /\
         Heap w' = delete 1%positive (Heap w_two)).
Proof.
  apply (RemoveString_release caller_ab w_two
           [{| Data := HeapPtr 1 |}; {| Data := HeapPtr 1 |}] 1
           (IncRefCount_data ab_1)).
  - apply reachable_w_two.
  - reflexivity.
Defined.



(** C4, on the code: the constructor from the literal ["ab"], an array of
    three elements, interns two of them; the assignment of the same literal
    interns all three, the terminator included, in another record. *)
Theorem literal_assignment_diverges :
  exists w1 w2,
    SharedString_literal 3 (CallerBuf 1) w_ab = Some ({| Data := HeapPtr 1 |}, w1) /\
    assign_literal {| Data := GetEmpty |} 3 (CallerBuf 1) w1
      = Some ({| Data := HeapPtr 2 |}, w2) /\
    Str {| Data := HeapPtr 1 |} w2 = Some (chars "ab", w2) /\
    Str {| Data := HeapPtr 2 |} w2 = Some (literal "ab", w2) /\
    Length <$> Heap w2 !! 1%positive = Some 2 /\
    Length <$> Heap w2 !! 2%positive = Some 3.
Proof.
  eexists _, _. split; [vm_compute; reflexivity|].
  split; [vm_compute; reflexivity|].
  split_and!; vm_compute; reflexivity.
Qed.

(** C5, on the code: the key [AddString] stores with a new record is the
    view of the caller's buffer it was given, not a view of the payload of
    the record; when the caller writes to its buffer, the key reads
    something else than the record holds. *)
Theorem AddString_key_views_caller :
  exists w1,
    AddString (CallerBuf 1) 2 w_ab = Some (HeapPtr 1, w1) /\
    Storage w1 = [({| sv_data := CallerBuf 1; sv_size := 2 |}, 1%positive)] /\
    CallerBuf 1 <> GetBuffer (HeapPtr 1) /\
    let w1' := set_Caller (<[1%positive := literal "cd"]> (Caller w1)) w1 in
    view w1' {| sv_data := CallerBuf 1; sv_size := 2 |} = Some (chars "cd") /\
    payload <$> Heap w1' !! 1%positive = Some (chars "ab").
Proof.
  eexists. split; [vm_compute; reflexivity|].
  split; [vm_compute; reflexivity|].
  split; [discriminate|].
  split; vm_compute; reflexivity.
Qed.

(** C6, on the code: the constructor from the literal [""], an array of one
    element, tests [Size == 0] and calls [AddString] with length 0: the
    mutex is taken, a record is allocated and entered in the table under an
    empty key, and the handle is not bound to [EmptyBuffer]. The assignment
    of the literal interns its terminator. *)
Theorem literal_empty_allocates :
  exists w1 w2,
    SharedString_literal 1 (CallerBuf 4) w_ab = Some ({| Data := HeapPtr 1 |}, w1) /\
    HeapPtr 1 <> GetEmpty /\
    Trace w1 = [EvLock; EvNew 1 9; EvUnlock] /\
    Storage w1 = [({| sv_data := CallerBuf 4; sv_size := 0 |}, 1%positive)] /\
    assign_literal {| Data := GetEmpty |} 1 (CallerBuf 4) w_ab
      = Some ({| Data := HeapPtr 1 |}, w2) /\
    Trace w2 = [EvLock; EvNew 1 10; EvUnlock] /\
    Storage w2 = [({| sv_data := CallerBuf 4; sv_size := 1 |}, 1%positive)].
Proof.
  eexists _, _. split; [vm_compute; reflexivity|].
  split; [discriminate|].
  split; [vm_compute; reflexivity|].
  split; [vm_compute; reflexivity|].
  split; [vm_compute; reflexivity|].
  split; vm_compute; reflexivity.
Qed.

(** C9, on the code: copying a handle that is bound to a record goes
    through [CopyRef] and its call of [IncRefCounter], which [SharedData]
    does not declare. *)
Theorem copy_of_bound_handle_undefined :
  SharedString_copy {| Data := HeapPtr 1 |} w_two = None /\
  assign_copy {| Data := GetEmpty |} {| Data := HeapPtr 1 |} w_two = None.
Proof. split; reflexivity. Qed.

Section Overrun.
Context {TChar : Type} `{!CharType TChar}.
Implicit Types (w : World TChar) (q C : list TChar).

(** [AddString] at the length 2^32 - 1 of a content that is not interned:
    [Length + 1] is 0 in 32 bits, the block that is allocated is the header
    alone, and the constructor of the record writes behind it. *)
Lemma AddString_overruns w Str q :
  pool_ok w -> load w Str (2 ^ 32 - 1) = Some q ->
  (forall a d, Heap w !! a = Some d -> payload d <> q) ->
  BufferSize (TChar := TChar) (2 ^ 32 - 1) = sizeof_SharedData /\
  AddString Str (2 ^ 32 - 1) w = None.
Proof.
  intros Hok Hq Hno.
  assert (Hsize : BufferSize (TChar := TChar) (2 ^ 32 - 1) = sizeof_SharedData).
  { unfold BufferSize, uint32_t. replace (2 ^ 32 - 1 + 1) with (2 ^ 32) by lia.
    rewrite Z.mod_same by lia. lia. }
  split; [done|].
  pose proof (pool_ok_trace w (Trace w ++ [EvLock]) Hok) as Hok1.
  pose proof (list_find_absent _ q Hok1 Hno) as Hf.
  unfold AddString, bind, log, Storage_find, view. simpl.
  replace (load _ Str (2 ^ 32 - 1)) with (Some q). simpl in *. rewrite Hf. simpl.
  unfold SharedData_ctor, new. simpl.
  replace (load _ Str (2 ^ 32 - 1)) with (Some q).
  rewrite decide_False; [done|]. rewrite Hsize.
  pose proof sizeof_TChar_pos. unfold sizeof_SharedData. lia.
Qed.

(** The constructor from a [std::string] of 2^32 - 1 elements, in a program
    that has interned nothing yet. *)
Lemma construct_overruns (caller : gmap positive (list TChar)) b C :
  caller !! b = Some (C ++ [TChar_0]) -> Z.of_nat (length C) = 2 ^ 32 - 1 ->
  content (start caller) (Owned {| c_str := CallerBuf b; size := 2 ^ 32 - 1 |})
  = Some C /\
  BufferSize (TChar := TChar) (2 ^ 32 - 1) = sizeof_SharedData /\
  construct (Owned {| c_str := CallerBuf b; size := 2 ^ 32 - 1 |}) (start caller)
  = None.
Proof.
  intros Hb Hlen.
  assert (Hl : load (start caller) (CallerBuf b) (2 ^ 32 - 1) = Some C).
  { unfold load, chars_at, start, Caller.
    rewrite Hb. rewrite length_app, Nat2Z.inj_add, Hlen.
    rewrite decide_True by (simpl length; lia).
    rewrite <- Hlen, Nat2Z.id. f_equal. apply take_app_length. }
  destruct (AddString_overruns (start caller) (CallerBuf b) C
              (pool_ok_start caller) Hl) as [Hsize Hrun].
  { intros a d Ha. simpl in Ha. by rewrite lookup_empty in Ha. }
  split_and!; [done|done|].
  unfold construct, SharedString_string, bind, c_str, size.
  rewrite decide_False by lia.
  replace (uint32_t (2 ^ 32 - 1)) with (2 ^ 32 - 1) by done.
  by rewrite Hrun.
Qed.

End Overrun.

Lemma max_string_length : Z.of_nat (length max_string) = 2 ^ 32 - 1.
Proof.
  unfold max_string. rewrite length_replicate. apply Z2Nat.id. lia.
Qed.

(** C10, on the code: for a [std::string] of 2^32 - 1 characters the
    length to record is 2^32 - 1, but [BufferSize] computes [Length + 1]
    in 32 bits and the block that is allocated is the 8 bytes of the header:
    the constructor of the record writes the characters behind it, and no
    length is recorded. *)
Theorem Length_max_overruns :
  content w_max (Owned {| c_str := CallerBuf 1; size := 2 ^ 32 - 1 |})
  = Some max_string /\
  Z.of_nat (length max_string) mod 2 ^ 32 = 2 ^ 32 - 1 /\
  BufferSize (TChar := ascii) (2 ^ 32 - 1) = 8 /\
  construct (Owned {| c_str := CallerBuf 1; size := 2 ^ 32 - 1 |}) w_max = None.
Proof.
  destruct (construct_overruns _ 1 max_string (lookup_singleton_eq _ _)
              max_string_length) as (Hc & Hsize & Hrun).
  split_and!; [exact Hc| |exact Hsize|exact Hrun].
  rewrite max_string_length. done.
Qed.

(** C1, on the code: [a] is constructed from ["ab"] in the buffer at 1, the
    program writes ["cd"] into that buffer, and [b] is constructed from a
    [std::string] that holds ["ab"]. The key of the record of [a] is the
    view of the buffer at 1 and reads ["cd"] now: the lookup misses, a
    second record is allocated for ["ab"], and the two handles, whose
    strings are equal, are bound to two records. *)
Theorem interning_lost_after_write :
  construct (Raw (CallerBuf 1)) w_ab = Some ({| Data := HeapPtr 1 |}, w_one) /\
  Storage w_stale = [({| sv_data := CallerBuf 1; sv_size := 2 |}, 1%positive)] /\
  view w_stale {| sv_data := CallerBuf 1; sv_size := 2 |} = Some (chars "cd") /\
  content w_stale (Owned {| c_str := CallerBuf 2; size := 2 |}) = Some (chars "ab") /\
  exists w2,
    construct (Owned {| c_str := CallerBuf 2; size := 2 |}) w_stale
    = Some ({| Data := HeapPtr 2 |}, w2) /\
    Trace w2 = Trace w_stale ++ [EvLock; EvNew 2 11; EvUnlock] /\
    payload <$> Heap w2 !! 1%positive = Some (chars "ab") /\
    payload <$> Heap w2 !! 2%positive = Some (chars "ab") /\
    Str {| Data := HeapPtr 1 |} w2 = Some (chars "ab", w2) /\
    Str {| Data := HeapPtr 2 |} w2 = Some (chars "ab", w2) /\
    CStr {| Data := HeapPtr 1 |} <> CStr {| Data := HeapPtr 2 |}.
Proof.
  split; [vm_compute; reflexivity|]. split; [vm_compute; reflexivity|].
  split; [vm_compute; reflexivity|]. split; [vm_compute; reflexivity|].
  eexists. split; [vm_compute; reflexivity|].
  split_and!; [vm_compute; reflexivity..|discriminate].
Qed.

(** C2, on the code: in the same program the record of [a] has one live
    handle and a counter of 1. Destroying [a] decrements it to 0 and looks
    up ["ab"]: the entry that is found is the one of [b]. It is erased and
    the record of [b] is freed; the record of [a] stays in the heap and in
    the table with a counter of 0 and no handle, and [b], which is live, is
    bound to freed memory: [Str] on it and its destructor are undefined. *)
Theorem last_release_frees_other_record :
  exists w2 w3,
    construct (Owned {| c_str := CallerBuf 2; size := 2 |}) w_stale
    = Some ({| Data := HeapPtr 2 |}, w2) /\
    RefCount <$> Heap w2 !! 1%positive = Some 1 /\
    handles_on 1 [{| Data := HeapPtr 2 |}; {| Data := HeapPtr 1 |}] = 1 /\
    SharedString_dtor {| Data := HeapPtr 1 |} w2 = Some (tt, w3) /\
    Trace w3 = Trace w2 ++ [EvDec 1; EvLock; EvDelete 2; EvUnlock] /\
    RefCount <$> Heap w3 !! 1%positive = Some 0 /\
    Storage w3 = [({| sv_data := CallerBuf 1; sv_size := 2 |}, 1%positive)] /\
    Heap w3 !! 2%positive = None /\
    Str {| Data := HeapPtr 2 |} w3 = None /\
    SharedString_dtor {| Data := HeapPtr 2 |} w3 = None.
Proof.
  eexists _, _. split; [vm_compute; reflexivity|].
  split; [vm_compute; reflexivity|]. split; [vm_compute; reflexivity|].
  split; [vm_compute; reflexivity|].
  split_and!; vm_compute; reflexivity.
Qed.

(** C8, on the code: [a] is constructed from ["ab"] in the buffer at 1, the
    program writes ["cd"] into that buffer, and [a] is released.
    [RemoveString] decrements the counter to 0 and takes the mutex; the
    lookup of the content of the record finds no entry, since the only key
    reads ["cd"], and [erase] is called on [end()]. *)
Theorem RemoveString_erases_end :
  exists wd,
    DecRefCount (HeapPtr 1) w_stale = Some (0, wd) /\
    Trace wd = Trace w_stale ++ [EvDec 1] /\
    GetLength (HeapPtr 1) wd = Some (2, wd) /\
    load wd (GetBuffer (HeapPtr 1)) 2 = Some (chars "ab") /\
    Storage wd = [({| sv_data := CallerBuf 1; sv_size := 2 |}, 1%positive)] /\
    view wd {| sv_data := CallerBuf 1; sv_size := 2 |} = Some (chars "cd") /\
    Storage_find {| sv_data := GetBuffer (HeapPtr 1); sv_size := 2 |} wd
    = Some (None, wd) /\
    Storage_erase None wd = None /\
    RemoveString (HeapPtr 1) w_stale = None /\
    SharedString_dtor {| Data := HeapPtr 1 |} w_stale = None.
Proof.
  eexists. split; [vm_compute; reflexivity|].
  split_and!; vm_compute; reflexivity.
Qed.


Lemma huge_string_length : Z.of_nat (length huge_string) = 2 ^ 32.
Proof.
  unfold huge_string. rewrite length_replicate. unfold huge.
  apply Z2Nat.id. lia.
Qed.

Lemma Length_truncated_witness :
  exists h w' d',
    construct (Owned {| c_str := CallerBuf 1; size := 2 ^ 32 |}) w_huge = Some (h, w') /\
    deref w' (Data h) = Some d' /\
    Length d' = Z.of_nat (length huge_string) mod 2 ^ 32 /\
    Str h w' = Some (take (Z.to_nat (Z.of_nat (length huge_string) mod 2 ^ 32))
                          huge_string, w').
Proof.
  apply (Length_truncated {[ 1%positive := huge_string ++ ["000"%char] ]}
           w_huge [] (Owned {| c_str := CallerBuf 1; size := 2 ^ 32 |})
           1 huge_string).
  - apply reachable_start.
  - reflexivity.
  - apply (truncated_to_nothing _ 1 huge_string).
    + apply lookup_singleton_eq.
    + apply huge_string_length.
  - rewrite huge_string_length. vm_compute. discriminate.
Defined.

(** C7 as stated fails: a [std::string] of 2^32 characters is not empty,
    and [Str] on the handle constructed from it returns the empty string. *)
Lemma Str_roundtrip_fails_at_2_32 :
  content w_huge (Owned {| c_str := CallerBuf 1; size := 2 ^ 32 |}) = Some huge_string /\
  huge_string <> [] /\
  exists h w', construct (Owned {| c_str := CallerBuf 1; size := 2 ^ 32 |}) w_huge
               = Some (h, w') /\
    Str h w' = Some ([], w').
Proof.
  apply (truncated_to_nothing _ 1 huge_string).
  - apply lookup_singleton_eq.
  - apply huge_string_length.
Qed.

Lemma Str_roundtrip_witness :
  let Len := Z.of_nat (length (chars "cd")) in
  (forall this,
     SharedData_ctor this (BufferSize Len) (source_ptr (Raw (CallerBuf 3))) Len w_two
     = Some (tt, set_Heap (<[this := {| RefCount := 1; Length := Len;
                                        Buffer := chars "cd" ++ [TChar_0] |}]>
                             (Heap w_two)) w_two)) /\
  exists a w' d', construct (Raw (CallerBuf 3)) w_two = Some ({| Data := HeapPtr a |}, w') /\
    Heap w' !! a = Some d' /\
    Buffer d' = chars "cd" ++ [TChar_0] /\ Length d' = Len /\
    ((forall a0 d0, Heap w_two !! a0 = Some d0 -> payload d0 <> chars "cd") ->
       a = fresh (dom (Heap w_two)) /\ RefCount d' = 1 /\
       Trace w' = Trace w_two ++ [EvLock; EvNew a (BufferSize Len); EvUnlock]) /\
    Str {| Data := HeapPtr a |} w' = Some (chars "cd", w').
Proof.
  apply (Str_roundtrip caller_ab w_two
           [{| Data := HeapPtr 1 |}; {| Data := HeapPtr 1 |}]
           (Raw (CallerBuf 3)) 3 (chars "cd")).
  - apply reachable_w_two.
  - reflexivity.
  - vm_compute. reflexivity.
  - discriminate.
  - vm_compute. reflexivity.
Defined.

(** * More of the code *)

Section Orphans.
Context {TChar : Type} `{!CharType TChar}.
Implicit Types (w : World TChar) (d : SharedData TChar) (q C : list TChar).
Implicit Types (h : SharedString) (hs : list SharedString) (s : Source).

Lemma no_orphan_hit w hs a d :
  accounted w hs -> no_orphan w -> Heap w !! a = Some d ->
  Z.of_nat (length hs) < 2 ^ 32 - 1 ->
  no_orphan (hit_world a d w).
Proof.
  intros Hacc Hno Ha Hfew a0 d0. simpl.
  destruct (decide (a0 = a)) as [->|Hne].
  - rewrite lookup_insert_eq. intros [= <-]. simpl.
    pose proof (Hno a d Ha). pose proof (handles_on_le_length a hs).
    rewrite <- (acc_count w hs Hacc a d Ha) in *.
    rewrite uint32_t_small; lia.
  - rewrite lookup_insert_ne by done. apply Hno.
Qed.

Lemma no_orphan_miss w p Len q : no_orphan w -> no_orphan (miss_world p Len q w).
Proof.
  intros Hno a0 d0. simpl.
  destruct (decide (a0 = fresh (dom (Heap w)))) as [->|Hne].
  - rewrite lookup_insert_eq. intros [= <-]. simpl. lia.
  - rewrite lookup_insert_ne by done. apply Hno.
Qed.

Lemma no_orphan_keep w a d :
  no_orphan w -> Heap w !! a = Some d -> 1 < RefCount d -> RefCount d < 2 ^ 32 ->
  no_orphan (keep_world a d w).
Proof.
  intros Hno Ha Hmore Hlt a0 d0. simpl.
  destruct (decide (a0 = a)) as [->|Hne].
  - rewrite lookup_insert_eq. intros [= <-]. simpl. rewrite uint32_t_small; lia.
  - rewrite lookup_insert_ne by done. apply Hno.
Qed.

Lemma no_orphan_erase w a i : no_orphan w -> no_orphan (erase_world a i w).
Proof.
  intros Hno a0 d0 Ha0. simpl in Ha0.
  apply lookup_delete_Some in Ha0 as [_ Ha0]. by apply (Hno a0 d0).
Qed.

Lemma AddString_no_orphan w hs b Len q r w' :
  pool_ok w -> accounted w hs -> no_orphan w ->
  load w (CallerBuf b) Len = Some q ->
  Len <> 2 ^ 32 - 1 -> Len < 2 ^ 32 ->
  Z.of_nat (length hs) < 2 ^ 32 - 1 ->
  AddString (CallerBuf b) Len w = Some (r, w') -> no_orphan w'.
Proof.
  intros Hok Hacc Hno Hl Hmax Hlt Hfew Hrun.
  destruct (record_dec w q Hok) as [(a & d & Ha & Hp)|Hnone].
  - rewrite (AddString_hit w _ _ q a d Hok Hl Ha Hp) in Hrun.
    injection Hrun as <- <-. by apply (no_orphan_hit w hs).
  - rewrite (AddString_miss w _ _ q Hok Hl Hnone Hmax Hlt) in Hrun.
    injection Hrun as <- <-. by apply no_orphan_miss.
Qed.

Lemma construct_no_orphan w hs s b C h w' :
  pool_ok w -> accounted w hs -> no_orphan w ->
  source_ptr s = CallerBuf b -> content w s = Some C ->
  uint32_t (Z.of_nat (length C)) <> 2 ^ 32 - 1 ->
  Z.of_nat (length hs) < 2 ^ 32 - 1 ->
  construct s w = Some (h, w') -> no_orphan w'.
Proof.
  intros Hok Hacc Hno Hb Hc Hmax Hfew Hrun.
  assert (Hvia :
    construct s w = bind (AddString (source_ptr s) (uint32_t (Z.of_nat (length C))))
                         (fun r => ret {| Data := r |}) w -> no_orphan w').
  { intros Heq. rewrite Heq in Hrun. unfold bind in Hrun.
    pose proof (content_load w s C Hc) as Hl. rewrite Hb in *.
    destruct (AddString _ _ w) as [[r w1]|] eqn:Hadd; [|done].
    injection Hrun as <- <-.
    apply (AddString_no_orphan w hs b _ _ r w1 Hok Hacc Hno Hl Hmax);
      [apply uint32_t_range|done..]. }
  destruct (decide (C = [])) as [->|Hne]; [|by apply Hvia, construct_AddString].
  pose proof (content_size w s [] Hc) as Hn.
  destruct s as [p|bs|Size p]; simpl in Hn, Hrun.
  - unfold SharedString_raw, GetData, strlen, bind in Hrun.
    destruct (chars_at w p) as [l|]; [|done]. rewrite Hn in Hrun.
    by injection Hrun as <- <-.
  - injection Hn as Hn. unfold SharedString_string, bind in Hrun.
    rewrite decide_True in Hrun by done. by injection Hrun as <- <-.
  - apply Hvia. injection Hn as Hn. simpl. unfold SharedString_literal.
    rewrite decide_False by lia. by replace (Size - 1) with 0 by lia.
Qed.

Lemma Clear_no_orphan w this rest w' :
  pool_ok w -> accounted w (this :: rest) -> no_orphan w ->
  Clear this w = Some (tt, w') -> no_orphan w'.
Proof.
  intros Hok Hacc Hno Hrun. destruct (Data this) as [|a] eqn:Hd.
  - unfold Clear in Hrun. rewrite Hd in Hrun.
    rewrite decide_False in Hrun by (intros H; by apply H).
    by injection Hrun as <-.
  - destruct (acc_live w _ Hacc this a) as [d Ha]; [apply list_elem_of_here|done|].
    destruct (pool_records w Hok a d Ha) as [[_ _ _ Hrc] _].
    destruct (dtor_bound w [] this rest a d Hok Hacc Hd Ha)
      as [[Hmore Hrun']|[Hone (i & k & Hi & Hrun')]];
      unfold SharedString_dtor in Hrun'; rewrite Hrun' in Hrun;
      injection Hrun as <-.
    + apply no_orphan_keep; [done..|lia].
    + by apply no_orphan_erase.
Qed.

Lemma assign_view_no_orphan w this rest v b C this' w' :
  pool_ok w -> accounted w (this :: rest) -> no_orphan w ->
  Z.of_nat (length (this :: rest)) < 2 ^ 32 - 1 ->
  sv_data v = CallerBuf b -> view w v = Some C ->
  uint32_t (sv_size v) <> 2 ^ 32 - 1 ->
  assign_view this v w = Some (this', w') -> no_orphan w'.
Proof.
  intros Hok Hacc Hno Hfew Hb Hv Hmax Hrun. simpl in Hfew.
  destruct (Clear_ok w this rest Hok Hacc) as (w1 & Hrun0 & Hok0 & Hacc0 & Hcal0).
  pose proof (Clear_no_orphan w this rest w1 Hok Hacc Hno Hrun0) as Hno0.
  unfold assign_view, bind in Hrun. rewrite Hrun0 in Hrun.
  case_decide as Hz; [by injection Hrun as <- <-|].
  assert (Hl : load w1 (CallerBuf b) (uint32_t (sv_size v))
               = Some (take (Z.to_nat (uint32_t (sv_size v))) C)).
  { unfold view in Hv. rewrite Hb in Hv. unfold load, chars_at in *.
    rewrite Hcal0. destruct (Caller w !! b) as [l|]; [|done].
    case_decide as Hr; [|done]. injection Hv as <-.
    pose proof (uint32_t_range (sv_size v)).
    assert (uint32_t (sv_size v) <= sv_size v)
      by (unfold uint32_t; apply Z.mod_le; lia).
    rewrite decide_True by lia. f_equal. rewrite take_take. f_equal. lia. }
  rewrite Hb in Hrun.
  destruct (AddString _ _ w1) as [[r w2]|] eqn:Hadd; [|done].
  injection Hrun as <- <-.
  apply (AddString_no_orphan w1 rest b _ _ r w2 Hok0 Hacc0 Hno0 Hl Hmax);
    [apply uint32_t_range|lia|done].
Qed.

Lemma step_no_orphan w hs w' hs' :
  step (w, hs) (w', hs') -> pool_ok w -> accounted w hs -> no_orphan w ->
  no_orphan w'.
Proof.
  intros Hstep. remember (w, hs) as st eqn:Est. remember (w', hs') as st' eqn:Est'.
  revert Est Est'.
  destruct Hstep as
    [w0 hs0 h w0' Hrun
    |w0 hs0 s b C h w0' Hb Hc Hmax Hfew Hrun
    |w0 hs0 src h w0' Hin Hrun
    |w0 hs0 src rest h src' w0' Hp Hrun
    |w0 hs0 h rest w0' Hp Hrun
    |w0 hs0 this rest src this' w0' Hp Hin Hrun
    |w0 hs0 this src rest this' src' w0' Hp Hrun
    |w0 hs0 this rest this' src' w0' Hp Hrun
    |w0 hs0 this rest v b C this' w0' Hp Hb Hv Hmax Hfew Hrun
    |w0 hs0 this rest bs b C this' w0' Hp Hb Hv Hmax Hfew Hrun
    |w0 hs0 this rest b n C this' w0' Hp Hn Hv Hmax Hfew Hrun
    |w0 hs0 this rest Size b C this' w0' Hp Hv Hmax Hfew Hrun];
    intros [= -> ->] [= -> <-] Hok Hacc Hno.
  - by injection Hrun as <- <-.
  - by apply (construct_no_orphan w hs s b C h w').
  - unfold SharedString_copy, bind in Hrun. case_decide; [|done].
    by injection Hrun as <- <-.
  - by injection Hrun as <- <- <-.
  - apply (accounted_Permutation w hs (h :: rest) Hp) in Hacc.
    by apply (Clear_no_orphan w h rest w').
  - apply (accounted_Permutation w hs (this :: rest) Hp) in Hacc.
    unfold assign_copy, bind in Hrun. case_decide; [|by injection Hrun as <- <-].
    destruct (Clear this w) as [[[] w1]|] eqn:Hc; [|done].
    case_decide; [|done]. injection Hrun as <- <-.
    by apply (Clear_no_orphan w this rest w1).
  - apply (accounted_Permutation w hs (this :: src :: rest) Hp) in Hacc.
    unfold assign_move, bind in Hrun. case_decide; [|by injection Hrun as <- <- <-].
    destruct (Clear this w) as [[[] w1]|] eqn:Hc; [|done].
    injection Hrun as <- <- <-.
    by apply (Clear_no_orphan w this (src :: rest) w1).
  - unfold assign_move in Hrun. rewrite decide_False in Hrun by (intros H; by apply H).
    by injection Hrun as <- <- <-.
  - assert (Hlen : length hs = length (this :: rest)) by (by rewrite Hp).
    apply (accounted_Permutation w hs (this :: rest) Hp) in Hacc.
    apply (assign_view_no_orphan w this rest v b C this' w');
      [done|done|done|by rewrite <- Hlen|done..].
  - assert (Hlen : length hs = length (this :: rest)) by (by rewrite Hp).
    apply (accounted_Permutation w hs (this :: rest) Hp) in Hacc.
    apply (assign_view_no_orphan w this rest
             {| sv_data := c_str bs; sv_size := size bs |} b C this' w');
      [done|done|done|by rewrite <- Hlen|done..].
  - assert (Hlen : length hs = length (this :: rest)) by (by rewrite Hp).
    apply (accounted_Permutation w hs (this :: rest) Hp) in Hacc.
    unfold assign_raw, bind in Hrun. rewrite Hn in Hrun.
    apply (assign_view_no_orphan w this rest
             {| sv_data := CallerBuf b; sv_size := n |} b C this' w');
      [done|done|done|by rewrite <- Hlen|done..].
  - assert (Hlen : length hs = length (this :: rest)) by (by rewrite Hp).
    apply (accounted_Permutation w hs (this :: rest) Hp) in Hacc.
    apply (assign_view_no_orphan w this rest
             {| sv_data := CallerBuf b; sv_size := Size |} b C this' w');
      [done|done|done|by rewrite <- Hlen|done..].
Qed.

Lemma reachable_no_orphan (caller : gmap positive (list TChar)) w hs :
  reachable caller w hs -> no_orphan w.
Proof.
  induction 1 as [|w hs w' hs' Hreach IH Hstep].
  - intros a d Ha. simpl in Ha. by rewrite lookup_empty in Ha.
  - destruct (reachable_ok caller w hs Hreach) as (Hok & Hacc & _).
    by apply (step_no_orphan w hs w' hs').
Qed.

(** X1. No record outlives its handles, for a program that keeps to the
    conditions of [step] (one thread, every string left alone once a handle
    is built from it, fewer than 2^32 - 1 handles): in every state such a
    program reaches, each record of the heap has a counter of at least 1
    and a live handle bound to it, and when no handle is live the heap and
    the table are empty. *)
Theorem no_record_without_handle (caller : gmap positive (list TChar)) w hs :
  reachable caller w hs ->
  (forall a d, Heap w !! a = Some d ->
     1 <= RefCount d /\ exists h, h ∈ hs /\ Data h = HeapPtr a) /\
  (hs = [] -> Heap w = ∅ /\ Storage w = []).
Proof.
  intros Hreach. destruct (reachable_ok caller w hs Hreach) as (Hok & Hacc & _).
  pose proof (reachable_no_orphan caller w hs Hreach) as Hno.
  assert (Hbound : forall a d, Heap w !! a = Some d ->
            1 <= RefCount d /\ exists h, h ∈ hs /\ Data h = HeapPtr a).
  { intros a d Ha. pose proof (Hno a d Ha) as Hpos. split; [done|].
    rewrite (acc_count w hs Hacc a d Ha) in Hpos. unfold handles_on in Hpos.
    destruct (filter _ hs) as [|h l] eqn:Hf; [simpl in Hpos; lia|].
    assert (Hin : h ∈ filter (fun h => Data h = HeapPtr a) hs)
      by (rewrite Hf; apply list_elem_of_here).
    apply list_elem_of_filter in Hin as [? ?]. by exists h. }
  split; [done|]. intros ->.
  assert (Hempty : Heap w = ∅).
  { apply map_empty. intros a. destruct (Heap w !! a) as [d|] eqn:Ha; [|done].
    destruct (Hbound a d Ha) as [_ (h & Hin & _)]. by apply not_elem_of_nil in Hin. }
  split; [done|].
  destruct (Storage w) as [|[k a] l] eqn:Hs; [done|].
  destruct (pool_entries w Hok k a) as (b & d & _ & Hd & _).
  { rewrite Hs. apply list_elem_of_here. }
  rewrite Hempty in Hd. by rewrite lookup_empty in Hd.
Qed.

End Orphans.

Section Lifetimes.
Context {TChar : Type} `{!CharType TChar}.
Implicit Types (w : World TChar) (d : SharedData TChar) (q C : list TChar).
Implicit Types (h : SharedString) (hs : list SharedString) (s : Source).

Lemma Dec_Inc_data d :
  0 <= RefCount d < 2 ^ 32 -> DecRefCount_data (IncRefCount_data d) = d.
Proof.
  intros Hr. destruct d as [r l b]. unfold DecRefCount_data, IncRefCount_data.
  simpl in *. f_equal. unfold uint32_t. rewrite Zminus_mod_idemp_l.
  replace (r + 1 - 1) with r by lia. by apply Z.mod_small.
Qed.

Lemma Inc_Dec_data d :
  0 <= RefCount d < 2 ^ 32 -> IncRefCount_data (DecRefCount_data d) = d.
Proof.
  intros Hr. destruct d as [r l b]. unfold DecRefCount_data, IncRefCount_data.
  simpl in *. f_equal. unfold uint32_t. rewrite Zplus_mod_idemp_l.
  replace (r - 1 + 1) with r by lia. by apply Z.mod_small.
Qed.

(** X2. Constructing a handle and destroying it, for a program that keeps
    to the conditions of [step] (one thread, every string left alone once a
    handle is built from it, fewer than 2^32 - 1 handles): in every state
    such a program reaches, constructing a handle from a content that is
    not empty and destroying it leaves the heap, the table and the memory
    of the caller as they were. When the content was interned the counter
    of its record goes up and down, and that is all; when it was not, a
    record is allocated and erased again, by the [delete] of
    [Storage_erase], taken as a free. *)
Theorem construct_then_destroy (caller : gmap positive (list TChar)) w hs s b C :
  reachable caller w hs ->
  source_ptr s = CallerBuf b -> content w s = Some C -> C <> [] ->
  uint32_t (Z.of_nat (length C)) <> 2 ^ 32 - 1 ->
  Z.of_nat (length hs) < 2 ^ 32 - 1 ->
  exists h w1 w2,
    construct s w = Some (h, w1) /\ SharedString_dtor h w1 = Some (tt, w2) /\
    Heap w2 = Heap w /\ Storage w2 = Storage w /\ Caller w2 = Caller w /\
    ((exists a d, Heap w !! a = Some d /\ payload d = interned C /\
        Trace w2 = Trace w ++ [EvLock; EvInc a; EvUnlock; EvDec a]) \/
     ((forall a d, Heap w !! a = Some d -> payload d <> interned C) /\
        exists a,
          Trace w2 = Trace w ++
            [EvLock; EvNew a (BufferSize (uint32_t (Z.of_nat (length C))));
             EvUnlock; EvDec a; EvLock; EvDelete a; EvUnlock])).
Proof.
  intros Hreach Hb Hc Hne Hmax Hfew.
  destruct (reachable_ok caller w hs Hreach) as (Hok & Hacc & _).
  pose proof (reachable_no_orphan caller w hs Hreach) as Hno.
  destruct (construct_cases w s b C Hok Hb Hc Hne Hmax)
    as [(a & d & Ha & Hp & Hrun)|[Hnone Hrun]].
  - destruct (pool_records w Hok a d Ha) as [[_ _ _ Hrc] _].
    pose proof (Hno a d Ha) as Hpos.
    pose proof (handles_on_le_length a hs) as Hle.
    rewrite <- (acc_count w hs Hacc a d Ha) in Hle.
    assert (Ha1 : Heap (hit_world a d w) !! a = Some (IncRefCount_data d))
      by apply lookup_insert_eq.
    eexists _, _, _. split; [exact Hrun|]. split.
    { unfold SharedString_dtor, Clear. simpl.
      apply (RemoveString_keep _ a _ Ha1). simpl.
      rewrite (uint32_t_small (RefCount d + 1)) by lia.
      rewrite uint32_t_small; lia. }
    simpl. split_and!; [|done..|].
    + rewrite insert_insert_eq, Dec_Inc_data by done. by apply insert_id.
    + left. exists a, d. split_and!; [done..|]. by rewrite <- app_assoc.
  - pose proof (content_load w s C Hc) as Hl. rewrite Hb in Hl.
    pose proof (fresh_not_allocated w) as Hfresh.
    set (a := fresh (dom (Heap w))) in *.
    set (Len := uint32_t (Z.of_nat (length C))) in *.
    assert (Hok1 : pool_ok (miss_world (CallerBuf b) Len (interned C) w))
      by (apply pool_ok_miss; [done..|apply uint32_t_range|done]).
    destruct (RemoveString_last (miss_world (CallerBuf b) Len (interned C) w) a
                {| RefCount := 1; Length := Len; Buffer := interned C ++ [TChar_0] |})
      as (i & k & Hi & Hrun2); [done|apply lookup_insert_eq|done|].
    eexists _, _, _. split; [exact Hrun|]. split.
    { unfold SharedString_dtor, Clear. simpl. exact Hrun2. }
    simpl in *. split_and!; [by apply delete_insert_id| |done|].
    2: { right. split; [done|]. exists a. by rewrite <- app_assoc. }
    assert (Hlast : i = length (Storage w)).
    { destruct (decide (i < length (Storage w))%nat) as [Hlt|Hge].
      - rewrite lookup_app_l in Hi by done.
        apply list_elem_of_lookup_2 in Hi.
        destruct (pool_entries w Hok k a Hi) as (? & d0 & _ & Hd0 & _). congruence.
      - apply lookup_lt_Some in Hi. rewrite length_app in Hi. simpl in Hi. lia. }
    rewrite Hlast, delete_take_drop, take_app_length.
    rewrite drop_ge by (rewrite length_app; simpl; lia). apply app_nil_r.
Qed.

(** X3. The table and the heap go together: in every state the program
    reaches, the table has exactly one entry for each record of the heap,
    and none for anything else. *)
Theorem table_matches_heap (caller : gmap positive (list TChar)) w hs :
  reachable caller w hs ->
  length (Storage w) = stdpp.base.size (Heap w) /\
  forall a, a ∈ (Storage w).*2 <-> is_Some (Heap w !! a).
Proof.
  intros Hreach. destruct (reachable_ok caller w hs Hreach) as (Hok & _ & _).
  assert (Hiff : forall a, a ∈ (Storage w).*2 <-> is_Some (Heap w !! a)).
  { intros a. split.
    - intros ([k a'] & -> & Hin)%list_elem_of_fmap.
      destruct (pool_entries w Hok k a' Hin) as (? & d & _ & Hd & _). by exists d.
    - intros [d Hd]. destruct (pool_records w Hok a d Hd) as [_ [k Hin]].
      by apply (list_elem_of_fmap_2 snd _ (k, a)). }
  split; [|done].
  rewrite <- (length_fmap snd), <- size_dom.
  rewrite <- (size_list_to_set (C := gset positive) _ (pool_owned_once w Hok)).
  f_equal. apply set_eq. intros a.
  rewrite elem_of_list_to_set, elem_of_dom. apply Hiff.
Qed.

(** A live handle is bound to a record that [Str] reads. *)
Lemma handle_Str (caller : gmap positive (list TChar)) w hs h :
  reachable caller w hs -> h ∈ hs ->
  exists d, deref w (Data h) = Some d /\ Str h w = Some (payload d, w).
Proof.
  intros Hreach Hin. destruct (reachable_ok caller w hs Hreach) as (Hok & Hacc & _).
  destruct h as [[|a]].
  - by exists EmptyBuffer.
  - destruct (acc_live w hs Hacc _ a Hin eq_refl) as [d Ha].
    destruct (pool_records w Hok a d Ha) as [Hrec _].
    exists d. split; [done|by apply Str_bound].
Qed.

(** X4. Reads through a live handle: in every state the program reaches,
    every live handle is bound to [EmptyBuffer] or to a record of the heap,
    [Str] returns the elements of that record and changes nothing, and
    [CStr] points to those elements followed by [TChar(0)]. *)
Theorem live_handle_reads (caller : gmap positive (list TChar)) w hs h :
  reachable caller w hs -> h ∈ hs ->
  exists d, deref w (Data h) = Some d /\
    Z.of_nat (length (payload d)) = Length d /\
    Str h w = Some (payload d, w) /\
    chars_at w (CStr h) = Some (payload d ++ [TChar_0]).
Proof.
  intros Hreach Hin. destruct (reachable_ok caller w hs Hreach) as (Hok & Hacc & _).
  destruct h as [[|a]].
  - exists EmptyBuffer. by split_and!.
  - destruct (acc_live w hs Hacc _ a Hin eq_refl) as [d Ha].
    destruct (pool_records w Hok a d Ha) as [Hrec _].
    exists d. split_and!; [done|by rewrite (rec_Length d Hrec)|by apply Str_bound|].
    unfold CStr, GetBuffer, chars_at. simpl. rewrite Ha. simpl.
    by rewrite (rec_Buffer d Hrec) at 1.
Qed.

(** X5. Comparing pointers compares contents, for a program that keeps to
    the conditions of [step] (one thread, every string left alone once a
    handle is built from it): in every state such a program reaches, two
    live handles, one of them with a string that is not empty, have equal
    strings exactly when they are bound to the same record, and exactly
    when [CStr] returns the same pointer for both. *)
Theorem equal_strings_share_record (caller : gmap positive (list TChar))
    w hs h1 h2 C1 C2 w1 w2 :
  reachable caller w hs -> h1 ∈ hs -> h2 ∈ hs ->
  Str h1 w = Some (C1, w1) -> Str h2 w = Some (C2, w2) -> C1 <> [] ->
  (C1 = C2 <-> Data h1 = Data h2) /\ (C1 = C2 <-> CStr h1 = CStr h2).
Proof.
  intros Hreach Hin1 Hin2 Hs1 Hs2 Hne.
  destruct (reachable_ok caller w hs Hreach) as (Hok & _ & _).
  destruct (handle_Str caller w hs h1 Hreach Hin1) as (d1 & Hd1 & Hr1).
  destruct (handle_Str caller w hs h2 Hreach Hin2) as (d2 & Hd2 & Hr2).
  rewrite Hr1 in Hs1. rewrite Hr2 in Hs2.
  injection Hs1 as Hp1 _. injection Hs2 as Hp2 _.
  assert (Hiff : C1 = C2 <-> Data h1 = Data h2).
  { split.
    - intros Heq. destruct h1 as [[|a1]], h2 as [[|a2]]; simpl in *.
      + done.
      + injection Hd1 as <-. by destruct Hne.
      + injection Hd2 as <-. subst. by destruct Hne.
      + f_equal. apply (pool_canonical w Hok a1 a2 d1 d2); congruence.
    - intros Heq. rewrite Heq in Hd1. congruence. }
  split; [done|]. rewrite Hiff. unfold CStr, GetBuffer.
  split; [by intros ->|by intros [= ->]].
Qed.

End Lifetimes.

Section Assignments.
Context {TChar : Type} `{!CharType TChar}.
Implicit Types (w : World TChar) (d : SharedData TChar) (q C : list TChar).
Implicit Types (h : SharedString) (hs : list SharedString) (s : Source).

(** The pool never writes to the memory of the caller. *)
Lemma RemoveString_Caller w p w' :
  RemoveString p w = Some (tt, w') -> Caller w' = Caller w.
Proof.
  unfold RemoveString, bind, log, DecRefCount, GetLength, Storage_find,
    Storage_erase, undefined, ret.
  intros H. by repeat (case_match; simplify_eq/=).
Qed.

Lemma Clear_Caller w this w' :
  Clear this w = Some (tt, w') -> Caller w' = Caller w.
Proof.
  unfold Clear. case_decide; [apply RemoveString_Caller|by intros [= <-]].
Qed.

Lemma traits_length_nonneg (l : list TChar) n : traits_length l = Some n -> 0 <= n.
Proof.
  revert n. induction l as [|c l IH]; intros n; simpl; [done|].
  case_decide; [intros [= <-]; lia|].
  destruct (traits_length l) as [m|]; [|done]. simpl. intros [= <-].
  specialize (IH m eq_refl). lia.
Qed.

(** X6. Assignment of an owned string, and of a null-terminated string of
    the caller, is the release of the reference the handle has followed by
    the constructor from the same argument. *)
Theorem assignment_releases_then_constructs w this :
  (forall Str : basic_string,
     assign_string this Str w
     = bind (Clear this) (fun _ => SharedString_string Str) w) /\
  (forall b,
     assign_raw this (CallerBuf b) w
     = bind (Clear this) (fun _ => SharedString_raw (CallerBuf b)) w).
Proof.
  split.
  - intros bs. unfold assign_string, assign_view, SharedString_string, bind.
    by destruct (Clear this w) as [[[] w1]|].
  - intros b.
    unfold assign_raw, assign_view, SharedString_raw, GetData, strlen, bind.
    simpl. destruct (Clear this w) as [[[] w1]|] eqn:Hc.
    + rewrite (Clear_Caller w this w1 Hc).
      destruct (Caller w !! b) as [l|]; [|done].
      destruct (traits_length l) as [n|]; [|done]. by rewrite Hc.
    + destruct (Caller w !! b) as [l|]; [|done].
      destruct (traits_length l) as [n|]; [|done]. by rewrite Hc.
Qed.

(** X7. Assignment round trip, for a program that keeps to the conditions
    of [step]: in a state such a program reaches, the assignment of a
    non-empty view of fewer than 2^32 - 1 elements of caller memory to a
    live handle returns the handle bound to a record that holds them, [Str]
    returns them, and the state is again one such a program reaches, with
    that handle in the place of the old one. When the handle was the last
    one of its record, the assignment erases that record first, by the
    [delete] of [Storage_erase], taken as a free. *)
Theorem assign_view_roundtrip (caller : gmap positive (list TChar))
    w hs this rest v b C :
  reachable caller w hs -> hs ≡ₚ this :: rest ->
  sv_data v = CallerBuf b -> view w v = Some C -> C <> [] ->
  Z.of_nat (length C) < 2 ^ 32 - 1 ->
  Z.of_nat (length hs) < 2 ^ 32 - 1 ->
  exists a w',
    assign_view this v w = Some ({| Data := HeapPtr a |}, w') /\
    reachable caller w' ({| Data := HeapPtr a |} :: rest) /\
    Str {| Data := HeapPtr a |} w' = Some (C, w').
Proof.
  intros Hreach Hp Hb Hv Hne Hlt Hfew.
  destruct (reachable_ok caller w hs Hreach) as (Hok & Hacc & _).
  apply (accounted_Permutation w hs (this :: rest) Hp) in Hacc.
  destruct (Clear_ok w this rest Hok Hacc) as (w1 & Hrun0 & Hok0 & Hacc0 & Hcal0).
  pose proof (load_length _ _ _ _ Hv) as Hlen.
  assert (Hpos : sv_size v <> 0) by (destruct C; [done|simpl in Hlen; lia]).
  assert (Hu : uint32_t (sv_size v) = sv_size v) by (apply uint32_t_small; lia).
  assert (Hl : load w1 (CallerBuf b) (sv_size v) = Some C).
  { unfold view in Hv. rewrite Hb in Hv. unfold load, chars_at in *.
    by rewrite Hcal0. }
  destruct (AddString_reads w1 b (sv_size v) C Hok0 Hl)
    as (a & w' & d' & Hrun1 & Hok' & Ha' & Hp'); [lia..|].
  assert (Hrun : assign_view this v w = Some ({| Data := HeapPtr a |}, w')).
  { unfold assign_view, bind. rewrite Hrun0, decide_False by done.
    by rewrite Hb, Hu, Hrun1. }
  exists a, w'. split; [done|]. split.
  - apply (reachable_step caller w hs); [done|].
    apply (step_assign_view w hs this rest v b C); [done..|rewrite Hu; lia|done|done].
  - rewrite <- Hp'. apply Str_bound; [done|].
    by destruct (pool_records w' Hok' a d' Ha').
Qed.


(** X9. [a = a.CStr()] in a state reached by a program that keeps to the
    conditions of [step], by a handle that shares its record with another
    handle, when the record is not empty and holds no [TChar(0)] before
    its terminator, changes neither the handle nor the heap nor the table:
    the reference is released and taken back. *)
Theorem assign_own_buffer_shared (caller : gmap positive (list TChar))
    w hs h a d :
  reachable caller w hs -> h ∈ hs -> Data h = HeapPtr a ->
  1 < handles_on a hs -> Heap w !! a = Some d ->
  traits_length (Buffer d) = Some (Length d) -> Length d <> 0 ->
  exists w', assign_raw h (CStr h) w = Some (h, w') /\
    Heap w' = Heap w /\ Storage w' = Storage w /\
    Trace w' = Trace w ++ [EvDec a; EvLock; EvInc a; EvUnlock].
Proof.
  intros Hreach Hin Hh Hmore Ha Hn Hnz.
  destruct (reachable_ok caller w hs Hreach) as (Hok & Hacc & _).
  destruct (pool_records w Hok a d Ha) as [[Hbuf Hlen Hlr Hrc] _].
  pose proof (acc_count w hs Hacc a d Ha) as Hk.
  assert (Hkeep : RemoveString (HeapPtr a) w = Some (tt, keep_world a d w)).
  { apply RemoveString_keep; [done|]. rewrite uint32_t_small; lia. }
  pose proof (pool_ok_keep w a d Hok Ha) as Hok1.
  assert (Ha1 : Heap (keep_world a d w) !! a = Some (DecRefCount_data d))
    by apply lookup_insert_eq.
  destruct (pool_records _ Hok1 a _ Ha1) as [Hrec1 _].
  pose proof (load_payload _ a _ Ha1 Hrec1) as Hl.
  pose proof (AddString_hit _ _ _ _ a _ Hok1 Hl Ha1 eq_refl) as Hhit.
  eexists. split.
  - unfold assign_raw, assign_view, bind, strlen, CStr, GetBuffer, chars_at, deref.
    rewrite Hh, Ha. simpl. rewrite Hn.
    unfold Clear. rewrite Hh, decide_True by done. rewrite Hkeep.
    rewrite decide_False by done. rewrite uint32_t_small by lia.
    unfold GetBuffer in Hhit. simpl in Hhit. rewrite Hhit.
    unfold ret. by rewrite <- Hh, SharedString_eta.
  - simpl. split_and!; [|done|by rewrite <- app_assoc].
    rewrite insert_insert_eq, Inc_Dec_data by done. by apply insert_id.
Qed.

(** X10. The three constructors from content agree on a null-terminated
    array of the caller: the one from an owned string of that size always,
    the one from the array as a literal when the string is not empty. *)
Theorem constructors_agree w p (l : list TChar) n :
  chars_at w p = Some l -> traits_length l = Some n ->
  SharedString_string {| c_str := p; size := n |} w = SharedString_raw p w /\
  (n <> 0 -> SharedString_literal (n + 1) p w = SharedString_raw p w).
Proof.
  intros Hp Hn. pose proof (traits_length_nonneg l n Hn) as Hpos.
  unfold SharedString_string, SharedString_literal, SharedString_raw, GetData,
    strlen, bind. rewrite Hp, Hn. simpl. split.
  - by case_decide.
  - intros Hnz. rewrite !decide_False by lia.
    by replace (n + 1 - 1) with n by lia.
Qed.

(** X11. [SharedString b(a.CStr())] in a state reached by a program that
    keeps to the conditions of [step] (every string left alone once a
    handle is built from it, fewer than 2^32 - 1 handles): a handle
    constructed from the buffer of a live handle, when the record is not
    empty and holds no [TChar(0)] before its terminator, is bound to the
    same record, whose counter is incremented; nothing is allocated and the
    table is unchanged. *)
Theorem construct_from_CStr (caller : gmap positive (list TChar)) w hs h a d :
  reachable caller w hs -> h ∈ hs -> Data h = HeapPtr a ->
  Heap w !! a = Some d ->
  traits_length (Buffer d) = Some (Length d) -> Length d <> 0 ->
  Z.of_nat (length hs) < 2 ^ 32 - 1 ->
  exists w', SharedString_raw (CStr h) w = Some (h, w') /\
    Heap w' = <[a := IncRefCount_data d]> (Heap w) /\
    Storage w' = Storage w /\
    Trace w' = Trace w ++ [EvLock; EvInc a; EvUnlock] /\
    pool_ok w' /\ accounted w' (h :: hs).
Proof.
  intros Hreach Hin Hh Ha Hn Hnz Hfew.
  destruct (reachable_ok caller w hs Hreach) as (Hok & Hacc & _).
  destruct (pool_records w Hok a d Ha) as [Hrec _].
  pose proof (rec_Length_range d Hrec) as Hlr.
  pose proof (rec_Length d Hrec) as Hlen.
  pose proof (load_payload w a d Ha Hrec) as Hl.
  pose proof (AddString_hit w _ _ _ a d Hok Hl Ha eq_refl) as Hhit.
  exists (hit_world a d w). split_and!; [|done..|by apply pool_ok_hit|].
  - unfold SharedString_raw, GetData, bind, strlen, CStr, GetBuffer, chars_at, deref.
    rewrite Hh, Ha. simpl. rewrite Hn.
    rewrite decide_False by done. rewrite uint32_t_small by lia.
    unfold GetBuffer in Hhit. simpl in Hhit. rewrite Hhit.
    unfold ret. by rewrite <- Hh, SharedString_eta.
  - rewrite <- (SharedString_eta h), Hh. apply accounted_hit; [done..|].
    rewrite (acc_count w hs Hacc a d Ha).
    pose proof (handles_on_le_length a hs). lia.
Qed.

End Assignments.

Section Race.
Context {TChar : Type} `{!CharType TChar}.
Implicit Types (w : World TChar) (d : SharedData TChar).
Implicit Types (h : SharedString) (hs : list SharedString).

Lemma RemoveString_erase_run w a d :
  pool_ok w -> Heap w !! a = Some d ->
  exists i k, Storage w !! i = Some (k, a) /\
    RemoveString_erase (HeapPtr a) w
    = Some (tt, {| Heap := delete a (Heap w); Storage := delete i (Storage w);
                   Caller := Caller w;
                   Trace := Trace w ++ [EvLock; EvDelete a; EvUnlock] |}).
Proof.
  intros Hok Ha.
  pose proof (pool_ok_trace w (Trace w ++ [EvLock]) Hok) as Hok1.
  match type of Hok1 with pool_ok ?w1 =>
    assert (Ha1 : Heap w1 !! a = Some d) by done;
    destruct (pool_records w1 Hok1 a _ Ha1) as [Hrec' _];
    pose proof (load_payload w1 a _ Ha1 Hrec') as Hq;
    destruct (list_find_record w1 _ a _ Hok1 Ha1 eq_refl) as (i & k & Hf)
  end.
  exists i, k. split.
  { apply list_find_Some in Hf as (Hi & _). exact Hi. }
  unfold RemoveString_erase, bind, log, GetLength, Storage_find, view, deref.
  simpl. rewrite Ha. simpl in *. rewrite Hq, Hf. simpl.
  by rewrite <- !app_assoc.
Qed.

(** [RemoveString] is the decrement followed, on 0, by the erase. *)
Lemma RemoveString_parts (p : SharedDataPtr) :
  RemoveString (TChar := TChar) p
  = bind (DecRefCount p)
         (fun n => if decide (n = 0) then RemoveString_erase p else ret tt).
Proof. reflexivity. Qed.

(** X13. The decrement of [RemoveString] and its [erase] are not one
    critical section: the counter reaches 0 before the mutex is taken. When
    the last handle of a record is released and, between the decrement and
    the erase, [AddString] is called with the content of the record,
    [AddString] finds the record with a counter of 0 and hands it out with
    a counter of 1; the erase then frees it, and the handle that was handed
    out reads freed memory. *)
Theorem release_races_with_AddString (caller : gmap positive (list TChar))
    w hs a d b :
  reachable caller w hs -> Heap w !! a = Some d -> handles_on a hs = 1 ->
  load w (CallerBuf b) (Length d) = Some (payload d) ->
  exists w1 w2 w3,
    DecRefCount (HeapPtr a) w = Some (0, w1) /\
    AddString (CallerBuf b) (Length d) w1 = Some (HeapPtr a, w2) /\
    RefCount <$> Heap w2 !! a = Some 1 /\
    RemoveString_erase (HeapPtr a) w2 = Some (tt, w3) /\
    Heap w3 !! a = None /\
    Str {| Data := HeapPtr a |} w3 = None /\
    chars_at w3 (CStr {| Data := HeapPtr a |}) = None.
Proof.
  intros Hreach Ha Hone Hl.
  destruct (reachable_ok caller w hs Hreach) as (Hok & Hacc & _).
  assert (Hk : RefCount d = 1) by (by rewrite (acc_count w hs Hacc a d Ha)).
  pose proof (pool_ok_keep w a d Hok Ha) as Hok1.
  assert (Ha1 : Heap (keep_world a d w) !! a = Some (DecRefCount_data d))
    by apply lookup_insert_eq.
  pose proof (AddString_hit (keep_world a d w) (CallerBuf b) (Length d)
                (payload d) a (DecRefCount_data d) Hok1 Hl Ha1 eq_refl) as Hadd.
  pose proof (pool_ok_hit _ a _ Hok1 Ha1) as Hok2.
  set (w2 := hit_world a (DecRefCount_data d) (keep_world a d w)) in *.
  assert (Ha2 : Heap w2 !! a = Some (IncRefCount_data (DecRefCount_data d)))
    by apply lookup_insert_eq.
  destruct (RemoveString_erase_run w2 a _ Hok2 Ha2) as (i & k & _ & Hrun).
  eexists (keep_world a d w), w2, _. split_and!.
  - unfold DecRefCount. rewrite Ha. unfold keep_world, DecRefCount_data.
    simpl. by rewrite Hk.
  - exact Hadd.
  - rewrite Ha2. simpl. by rewrite Hk.
  - exact Hrun.
  - apply lookup_delete_eq.
  - unfold Str, bind, GetLength, deref. simpl. by rewrite lookup_delete_eq.
  - unfold CStr, GetBuffer, chars_at, deref. simpl. by rewrite lookup_delete_eq.
Qed.

End Race.

Section Discipline.
Context {TChar : Type} `{!CharType TChar}.
Implicit Types (w : World TChar) (h : SharedString) (hs : list SharedString).

Lemma mutex_run_app held t1 t2 :
  mutex_run held (t1 ++ t2)
  = match mutex_run held t1 with
    | Some held' => mutex_run held' t2
    | None => None
    end.
Proof.
  revert held. induction t1 as [|e t1 IH]; intros held; simpl; [done|].
  destruct (mutex_step held e); [apply IH|done].
Qed.

Ltac run_cases :=
  repeat (case_match; simplify_eq/=); simplify_eq/=.

Lemma AddString_mutex w Str Len r w' :
  AddString Str Len w = Some (r, w') ->
  mutex_run false (Trace w) = Some false ->
  mutex_run false (Trace w') = Some false.
Proof.
  unfold AddString, bind, log, Storage_find, IncRefCount, new, SharedData_ctor,
    Storage_emplace, set_Heap, set_Storage, ret.
  intros H. run_cases; intros Hm; rewrite !mutex_run_app, Hm; done.
Qed.

Lemma RemoveString_mutex w p w' :
  RemoveString p w = Some (tt, w') ->
  mutex_run false (Trace w) = Some false ->
  mutex_run false (Trace w') = Some false.
Proof.
  unfold RemoveString, bind, log, DecRefCount, GetLength, Storage_find,
    Storage_erase, undefined, ret.
  intros H. run_cases; intros Hm; rewrite !mutex_run_app, Hm; done.
Qed.

Lemma Clear_mutex w this w' :
  Clear this w = Some (tt, w') ->
  mutex_run false (Trace w) = Some false ->
  mutex_run false (Trace w') = Some false.
Proof.
  unfold Clear. case_decide; [apply RemoveString_mutex|by intros [= <-]].
Qed.

Lemma construct_mutex w s h w' :
  construct s w = Some (h, w') ->
  mutex_run false (Trace w) = Some false ->
  mutex_run false (Trace w') = Some false.
Proof.
  destruct s as [p|bs|Size p]; simpl;
    unfold SharedString_raw, SharedString_string, SharedString_literal,
      GetData, strlen, bind, ret; intros H Hm.
  - destruct (chars_at w p) as [l|]; [|done].
    destruct (traits_length l) as [n|]; [|done].
    case_decide; [by injection H as <- <-|].
    destruct (AddString _ _ w) as [[r w1]|] eqn:Hadd; [|done].
    injection H as <- <-. by apply (AddString_mutex _ _ _ _ _ Hadd).
  - case_decide; [by injection H as <- <-|].
    destruct (AddString _ _ w) as [[r w1]|] eqn:Hadd; [|done].
    injection H as <- <-. by apply (AddString_mutex _ _ _ _ _ Hadd).
  - case_decide; [by injection H as <- <-|].
    destruct (AddString _ _ w) as [[r w1]|] eqn:Hadd; [|done].
    injection H as <- <-. by apply (AddString_mutex _ _ _ _ _ Hadd).
Qed.

Lemma assign_view_mutex w this v this' w' :
  assign_view this v w = Some (this', w') ->
  mutex_run false (Trace w) = Some false ->
  mutex_run false (Trace w') = Some false.
Proof.
  unfold assign_view, bind, ret. intros H Hm.
  destruct (Clear this w) as [[[] w1]|] eqn:Hc; [|done].
  apply Clear_mutex in Hc; [|done]. case_decide; [by injection H as <- <-|].
  destruct (AddString _ _ w1) as [[r w2]|] eqn:Hadd; [|done].
  injection H as <- <-. by apply (AddString_mutex _ _ _ _ _ Hadd).
Qed.

Lemma step_mutex w hs w' hs' :
  step (w, hs) (w', hs') ->
  mutex_run false (Trace w) = Some false ->
  mutex_run false (Trace w') = Some false.
Proof.
  intros Hstep. remember (w, hs) as st eqn:Est. remember (w', hs') as st' eqn:Est'.
  revert Est Est'.
  destruct Hstep as
    [w0 hs0 h w0' Hrun
    |w0 hs0 s b C h w0' Hb Hc Hmax Hfew Hrun
    |w0 hs0 src h w0' Hin Hrun
    |w0 hs0 src rest h src' w0' Hp Hrun
    |w0 hs0 h rest w0' Hp Hrun
    |w0 hs0 this rest src this' w0' Hp Hin Hrun
    |w0 hs0 this src rest this' src' w0' Hp Hrun
    |w0 hs0 this rest this' src' w0' Hp Hrun
    |w0 hs0 this rest v b C this' w0' Hp Hb Hv Hmax Hfew Hrun
    |w0 hs0 this rest bs b C this' w0' Hp Hb Hv Hmax Hfew Hrun
    |w0 hs0 this rest b n C this' w0' Hp Hn Hv Hmax Hfew Hrun
    |w0 hs0 this rest Size b C this' w0' Hp Hv Hmax Hfew Hrun];
    intros [= -> ->] [= -> <-] Hm.
  - by injection Hrun as <- <-.
  - by apply (construct_mutex _ _ _ _ Hrun).
  - unfold SharedString_copy, bind in Hrun. case_decide; [|done].
    by injection Hrun as <- <-.
  - by injection Hrun as <- <- <-.
  - by apply (Clear_mutex _ _ _ Hrun).
  - unfold assign_copy, bind in Hrun. case_decide; [|by injection Hrun as <- <-].
    destruct (Clear this w) as [[[] w1]|] eqn:Hc; [|done].
    apply Clear_mutex in Hc; [|done]. case_decide; [|done].
    by injection Hrun as <- <-.
  - unfold assign_move, bind in Hrun. case_decide; [|by injection Hrun as <- <- <-].
    destruct (Clear this w) as [[[] w1]|] eqn:Hc; [|done].
    apply Clear_mutex in Hc; [|done]. by injection Hrun as <- <- <-.
  - unfold assign_move in Hrun. rewrite decide_False in Hrun by (intros H; by apply H).
    by injection Hrun as <- <- <-.
  - by apply (assign_view_mutex _ _ _ _ _ Hrun).
  - by apply (assign_view_mutex _ _ _ _ _ Hrun).
  - unfold assign_raw, bind in Hrun. rewrite Hn in Hrun.
    by apply (assign_view_mutex _ _ _ _ _ Hrun).
  - by apply (assign_view_mutex _ _ _ _ _ Hrun).
Qed.

(** X14. The discipline of the mutex in the calls of one thread: in every
    run of a program that keeps to the conditions of [step], the thread
    locks the mutex only when it does not hold it and unlocks it only when
    it does, it counts up, allocates and frees records only while it holds
    it, it decrements counters only while it does not hold it, and it
    returns from every call without it. That the decrement is made without
    the mutex is what lets another thread in between the decrement and the
    erase. *)
Theorem mutex_discipline (caller : gmap positive (list TChar)) w hs :
  reachable caller w hs -> mutex_run false (Trace w) = Some false.
Proof.
  induction 1 as [|w hs w' hs' _ IH Hstep]; [done|].
  by apply (step_mutex w hs w' hs').
Qed.

End Discipline.

Section Programs.
Context {TChar : Type} `{!CharType TChar}.
Implicit Types (w : World TChar) (h : SharedString).

Lemma raw_AddString w b (l : list TChar) n :
  Caller w !! b = Some l -> traits_length l = Some n -> n <> 0 ->
  SharedString_raw (CallerBuf b) w
  = bind (AddString (CallerBuf b) (uint32_t n)) (fun r => ret {| Data := r |}) w.
Proof.
  intros Hb Hn Hnz. unfold SharedString_raw, GetData, strlen, bind, chars_at.
  rewrite Hb, Hn. by rewrite decide_False.
Qed.

Lemma assign_raw_AddString w this b (l : list TChar) n w1 :
  Caller w !! b = Some l -> traits_length l = Some n -> n <> 0 ->
  Clear this w = Some (tt, w1) ->
  assign_raw this (CallerBuf b) w
  = bind (AddString (CallerBuf b) (uint32_t n)) (fun r => ret {| Data := r |}) w1.
Proof.
  intros Hb Hn Hnz Hc. unfold assign_raw, strlen, bind, chars_at.
  rewrite Hb, Hn. unfold assign_view, bind. rewrite Hc. simpl.
  by rewrite decide_False.
Qed.

Lemma load_caller w b (l : list TChar) n :
  Caller w !! b = Some l -> 0 <= n <= Z.of_nat (length l) ->
  load w (CallerBuf b) n = Some (take (Z.to_nat n) l).
Proof.
  intros Hb Hn. unfold load, chars_at. rewrite Hb. by rewrite decide_True.
Qed.

Lemma nothing_allocated w : pool_ok w -> Heap w = ∅ -> Storage w = [].
Proof.
  intros Hok Hempty. destruct (Storage w) as [|[k a] l] eqn:Hs; [done|].
  destruct (pool_entries w Hok k a) as (b & d & _ & Hd & _).
  { rewrite Hs. apply list_elem_of_here. }
  rewrite Hempty in Hd. by rewrite lookup_empty in Hd.
Qed.

End Programs.

(** X12. The course of [main], in the model (one thread, the [delete] of
    [Storage_erase] taken as a free), wherever its four literals are
    stored: the first ["str"] allocates a record and the second shares it,
    ["abcd"] and ["12345"] allocate one each, and the destructors erase the
    three records, so that [main] ends with nothing allocated, an empty
    table and the mutex free. Each of the three erases is a [delete] that
    does not match its [new]: as the standard reads it, [main] has
    undefined behaviour from the first of them on. *)
Theorem main_releases_everything (caller : gmap positive (list ascii))
    b1 b2 b3 b4 :
  caller !! b1 = Some (literal "str") ->
  caller !! b2 = Some (literal "str") ->
  caller !! b3 = Some (literal "abcd") ->
  caller !! b4 = Some (literal "12345") ->
  exists w', main b1 b2 b3 b4 (start caller) = Some (tt, w') /\
    Trace w' = [EvLock; EvNew 1 12; EvUnlock; EvLock; EvInc 1; EvUnlock;
                EvLock; EvNew 2 13; EvUnlock;
                EvDec 1; EvLock; EvNew 3 14; EvUnlock;
                EvDec 2; EvLock; EvDelete 2; EvUnlock;
                EvDec 3; EvLock; EvDelete 3; EvUnlock;
                EvDec 1; EvLock; EvDelete 1; EvUnlock] /\
    Heap w' = ∅ /\ Storage w' = [] /\ Caller w' = caller /\
    lock_depth (Trace w') = 0.
Proof.
  intros H1 H2 H3 H4.
  set (W0 := start caller).
  set (d1 := {| RefCount := 1; Length := 3; Buffer := literal "str" |}
             : SharedData ascii).
  set (d2 := {| RefCount := 1; Length := 4; Buffer := literal "abcd" |}
             : SharedData ascii).
  set (d3 := {| RefCount := 1; Length := 5; Buffer := literal "12345" |}
             : SharedData ascii).
  set (W1 := miss_world (CallerBuf b1) 3 (chars "str") W0).
  set (W2 := hit_world 1 d1 W1).
  set (W3 := miss_world (CallerBuf b3) 4 (chars "abcd") W2).
  set (W4 := keep_world 1 (IncRefCount_data d1) W3).
  set (W5 := miss_world (CallerBuf b4) 5 (chars "12345") W4).
  assert (T3 : traits_length (literal "str") = Some 3) by (vm_compute; reflexivity).
  assert (T4 : traits_length (literal "abcd") = Some 4) by (vm_compute; reflexivity).
  assert (T5 : traits_length (literal "12345") = Some 5) by (vm_compute; reflexivity).
  (* [SharedString<char> str = "str";] *)
  assert (Hok0 : pool_ok W0) by apply pool_ok_start.
  assert (L1 : load W0 (CallerBuf b1) 3 = Some (chars "str"))
    by (by rewrite (load_caller W0 b1 (literal "str") 3 H1)).
  assert (N0 : forall a d, Heap W0 !! a = Some d -> payload d <> chars "str").
  { intros a d Ha. simpl in Ha. by rewrite lookup_empty in Ha. }
  assert (E1 : SharedString_raw (CallerBuf b1) W0
               = Some ({| Data := HeapPtr 1 |}, W1)).
  { rewrite (raw_AddString W0 b1 (literal "str") 3 H1 T3) by done.
    unfold bind. change (uint32_t 3) with 3.
    by rewrite (AddString_miss W0 (CallerBuf b1) 3 (chars "str") Hok0 L1 N0). }
  assert (Hok1 : pool_ok W1) by (by apply pool_ok_miss).
  (* [SharedString<char> str1 = "str";] *)
  assert (L2 : load W1 (CallerBuf b2) 3 = Some (chars "str"))
    by (by rewrite (load_caller W1 b2 (literal "str") 3 H2)).
  assert (A1 : Heap W1 !! 1%positive = Some d1) by (vm_compute; reflexivity).
  assert (P1 : payload d1 = chars "str") by (vm_compute; reflexivity).
  assert (E2 : SharedString_raw (CallerBuf b2) W1
               = Some ({| Data := HeapPtr 1 |}, W2)).
  { rewrite (raw_AddString W1 b2 (literal "str") 3 H2 T3) by done.
    unfold bind. change (uint32_t 3) with 3.
    by rewrite (AddString_hit W1 (CallerBuf b2) 3 (chars "str") 1 d1 Hok1 L2 A1 P1). }
  assert (Hok2 : pool_ok W2) by (by apply pool_ok_hit).
  (* [SharedString<char> str3 = "abcd";] *)
  assert (L3 : load W2 (CallerBuf b3) 4 = Some (chars "abcd"))
    by (by rewrite (load_caller W2 b3 (literal "abcd") 4 H3)).
  assert (N2 : forall a d, Heap W2 !! a = Some d -> payload d <> chars "abcd").
  { intros a d Ha.
    change (Heap W2) with (<[1%positive := IncRefCount_data d1]>
                             (<[1%positive := d1]> (∅ : gmap positive _))) in Ha.
    rewrite insert_insert_eq in Ha.
    apply lookup_insert_Some in Ha as [[_ <-]|[_ Ha]]; [by vm_compute|].
    by rewrite lookup_empty in Ha. }
  assert (E3 : SharedString_raw (CallerBuf b3) W2
               = Some ({| Data := HeapPtr 2 |}, W3)).
  { rewrite (raw_AddString W2 b3 (literal "abcd") 4 H3 T4) by done.
    unfold bind. change (uint32_t 4) with 4.
    by rewrite (AddString_miss W2 (CallerBuf b3) 4 (chars "abcd") Hok2 L3 N2). }
  assert (Hok3 : pool_ok W3) by (by apply pool_ok_miss).
  (* [str2 = "12345";] *)
  assert (A3 : Heap W3 !! 1%positive = Some (IncRefCount_data d1))
    by (vm_compute; reflexivity).
  assert (Hc4 : Clear {| Data := HeapPtr 1 |} W3 = Some (tt, W4)).
  { unfold Clear. simpl. by apply RemoveString_keep. }
  assert (Hok4 : pool_ok W4) by (by apply pool_ok_keep).
  assert (L4 : load W4 (CallerBuf b4) 5 = Some (chars "12345"))
    by (by rewrite (load_caller W4 b4 (literal "12345") 5 H4)).
  assert (N4 : forall a d, Heap W4 !! a = Some d -> payload d <> chars "12345").
  { intros a d Ha.
    change (Heap W4) with (<[1%positive := DecRefCount_data (IncRefCount_data d1)]>
                             (<[2%positive := d2]>
                                (<[1%positive := IncRefCount_data d1]>
                                   (∅ : gmap positive _)))) in Ha.
    apply lookup_insert_Some in Ha as [[_ <-]|[_ Ha]]; [by vm_compute|].
    apply lookup_insert_Some in Ha as [[_ <-]|[_ Ha]]; [by vm_compute|].
    apply lookup_insert_Some in Ha as [[_ <-]|[_ Ha]]; [by vm_compute|].
    by rewrite lookup_empty in Ha. }
  assert (E5 : assign_raw {| Data := HeapPtr 1 |} (CallerBuf b4) W3
               = Some ({| Data := HeapPtr 3 |}, W5)).
  { rewrite (assign_raw_AddString W3 _ b4 (literal "12345") 5 W4 H4 T5) by done.
    unfold bind. change (uint32_t 5) with 5.
    by rewrite (AddString_miss W4 (CallerBuf b4) 5 (chars "12345") Hok4 L4 N4). }
  assert (Hok5 : pool_ok W5) by (by apply pool_ok_miss).
  (* the destructors of [str3], [str2], [str1] and [str] *)
  assert (A5 : Heap W5 !! 2%positive = Some d2) by (vm_compute; reflexivity).
  destruct (RemoveString_last W5 2 d2 Hok5 A5 ltac:(vm_compute; reflexivity)) as (i6 & k6 & Hi6 & E6).
  pose proof (pool_ok_erase W5 2 i6 k6 Hok5 Hi6) as Hok6.
  set (W6 := erase_world 2 i6 W5) in *.
  assert (A6 : Heap W6 !! 3%positive = Some d3) by (vm_compute; reflexivity).
  destruct (RemoveString_last W6 3 d3 Hok6 A6 ltac:(vm_compute; reflexivity)) as (i7 & k7 & Hi7 & E7).
  pose proof (pool_ok_erase W6 3 i7 k7 Hok6 Hi7) as Hok7.
  set (W7 := erase_world 3 i7 W6) in *.
  assert (A7 : Heap W7 !! 1%positive
               = Some (DecRefCount_data (IncRefCount_data d1)))
    by (vm_compute; reflexivity).
  destruct (RemoveString_last W7 1 _ Hok7 A7 ltac:(vm_compute; reflexivity)) as (i8 & k8 & Hi8 & E8).
  pose proof (pool_ok_erase W7 1 i8 k8 Hok7 Hi8) as Hok8.
  set (W8 := erase_world 1 i8 W7) in *.
  assert (Htrace : Trace W8
                   = [EvLock; EvNew 1 12; EvUnlock; EvLock; EvInc 1; EvUnlock;
                      EvLock; EvNew 2 13; EvUnlock;
                      EvDec 1; EvLock; EvNew 3 14; EvUnlock;
                      EvDec 2; EvLock; EvDelete 2; EvUnlock;
                      EvDec 3; EvLock; EvDelete 3; EvUnlock;
                      EvDec 1; EvLock; EvDelete 1; EvUnlock])
    by (vm_compute; reflexivity).
  assert (Hheap : Heap W8 = ∅) by (vm_compute; reflexivity).
  assert (Hcal : Caller W8 = caller) by reflexivity.
  pose proof (nothing_allocated W8 Hok8 Hheap) as Hstore.
  exists W8. split.
  - clearbody W1 W2 W3 W4 W5 W6 W7 W8.
    unfold main, bind. rewrite E1, E2. simpl. rewrite E3. simpl.
    rewrite E5. unfold SharedString_dtor, Clear. simpl.
    by rewrite E6, E7, E8.
  - split_and!; [done..|]. by rewrite Htrace.
Qed.

(** ** The added properties on concrete programs *)

Lemma reachable_w_one : reachable caller_ab w_one [{| Data := HeapPtr 1 |}].
Proof.
  apply (reachable_step caller_ab w_ab []); [apply reachable_start|].
  apply (step_construct w_ab [] (Raw (CallerBuf 1)) 1 (chars "ab"));
    [reflexivity|vm_compute; reflexivity|vm_compute; discriminate|
     vm_compute; reflexivity|vm_compute; reflexivity].
Qed.

Lemma no_record_without_handle_witness :
  (forall a d, Heap w_two !! a = Some d ->
     1 <= RefCount d /\
     exists h, h ∈ [{| Data := HeapPtr 1 |}; {| Data := HeapPtr 1 |}] /\
               Data h = HeapPtr a) /\
  ([{| Data := HeapPtr 1 |}; {| Data := HeapPtr 1 |}] = [] ->
     Heap w_two = ∅ /\ Storage w_two = []).
Proof.
  apply (no_record_without_handle caller_ab w_two
           [{| Data := HeapPtr 1 |}; {| Data := HeapPtr 1 |}]).
  apply reachable_w_two.
Defined.

Lemma construct_then_destroy_witness :
  exists h w1 w2,
    construct (Raw (CallerBuf 3)) w_two = Some (h, w1) /\
    SharedString_dtor h w1 = Some (tt, w2) /\
    Heap w2 = Heap w_two /\ Storage w2 = Storage w_two /\ Caller w2 = Caller w_two /\
    ((exists a d, Heap w_two !! a = Some d /\ payload d = interned (chars "cd") /\
        Trace w2 = Trace w_two ++ [EvLock; EvInc a; EvUnlock; EvDec a]) \/
     ((forall a d, Heap w_two !! a = Some d -> payload d <> interned (chars "cd")) /\
        exists a,
          Trace w2 = Trace w_two ++
            [EvLock; EvNew a (BufferSize (uint32_t (Z.of_nat (length (chars "cd")))));
             EvUnlock; EvDec a; EvLock; EvDelete a; EvUnlock])).
Proof.
  apply (construct_then_destroy caller_ab w_two
           [{| Data := HeapPtr 1 |}; {| Data := HeapPtr 1 |}]
           (Raw (CallerBuf 3)) 3 (chars "cd")).
  - apply reachable_w_two.
  - reflexivity.
  - vm_compute. reflexivity.
  - discriminate.
  - vm_compute. discriminate.
  - vm_compute. reflexivity.
Defined.

Lemma table_matches_heap_witness :
  length (Storage w_two) = stdpp.base.size (Heap w_two) /\
  forall a, a ∈ (Storage w_two).*2 <-> is_Some (Heap w_two !! a).
Proof.
  apply (table_matches_heap caller_ab w_two
           [{| Data := HeapPtr 1 |}; {| Data := HeapPtr 1 |}]).
  apply reachable_w_two.
Defined.

Lemma live_handle_reads_witness :
  exists d, deref w_two (Data {| Data := HeapPtr 1 |}) = Some d /\
    Z.of_nat (length (payload d)) = Length d /\
    Str {| Data := HeapPtr 1 |} w_two = Some (payload d, w_two) /\
    chars_at w_two (CStr {| Data := HeapPtr 1 |}) = Some (payload d ++ [TChar_0]).
Proof.
  apply (live_handle_reads caller_ab w_two
           [{| Data := HeapPtr 1 |}; {| Data := HeapPtr 1 |}]).
  - apply reachable_w_two.
  - constructor.
Defined.

Lemma reachable_w_three :
  reachable caller_ab w_three
    [{| Data := HeapPtr 2 |}; {| Data := HeapPtr 1 |}; {| Data := HeapPtr 1 |}].
Proof.
  apply (reachable_step caller_ab w_two
           [{| Data := HeapPtr 1 |}; {| Data := HeapPtr 1 |}]);
    [apply reachable_w_two|].
  apply (step_construct w_two _ (Raw (CallerBuf 3)) 3 (chars "cd"));
    [reflexivity|vm_compute; reflexivity|vm_compute; discriminate|
     vm_compute; reflexivity|vm_compute; reflexivity].
Qed.

Lemma equal_strings_share_record_witness :
  (chars "ab" = chars "cd" <->
   Data {| Data := HeapPtr 1 |} = Data {| Data := HeapPtr 2 |}) /\
  (chars "ab" = chars "cd" <->
   CStr {| Data := HeapPtr 1 |} = CStr {| Data := HeapPtr 2 |}).
Proof.
  apply (equal_strings_share_record caller_ab w_three
           [{| Data := HeapPtr 2 |}; {| Data := HeapPtr 1 |}; {| Data := HeapPtr 1 |}]
           {| Data := HeapPtr 1 |} {| Data := HeapPtr 2 |}
           (chars "ab") (chars "cd") w_three w_three).
  - apply reachable_w_three.
  - apply list_elem_of_further, list_elem_of_here.
  - apply list_elem_of_here.
  - vm_compute. reflexivity.
  - vm_compute. reflexivity.
  - discriminate.
Defined.

Lemma assign_view_roundtrip_witness :
  exists a w',
    assign_view {| Data := HeapPtr 1 |} {| sv_data := CallerBuf 3; sv_size := 2 |} w_two
      = Some ({| Data := HeapPtr a |}, w') /\
    reachable caller_ab w' [{| Data := HeapPtr a |}; {| Data := HeapPtr 1 |}] /\
    Str {| Data := HeapPtr a |} w' = Some (chars "cd", w').
Proof.
  apply (assign_view_roundtrip caller_ab w_two
           [{| Data := HeapPtr 1 |}; {| Data := HeapPtr 1 |}]
           {| Data := HeapPtr 1 |} [{| Data := HeapPtr 1 |}]
           {| sv_data := CallerBuf 3; sv_size := 2 |} 3 (chars "cd")).
  - apply reachable_w_two.
  - reflexivity.
  - reflexivity.
  - vm_compute. reflexivity.
  - discriminate.
  - vm_compute. reflexivity.
  - vm_compute. reflexivity.
Defined.


Lemma assign_own_buffer_shared_witness :
  exists w',
    assign_raw {| Data := HeapPtr 1 |} (CStr {| Data := HeapPtr 1 |}) w_two
      = Some ({| Data := HeapPtr 1 |}, w') /\
    Heap w' = Heap w_two /\ Storage w' = Storage w_two /\
    Trace w' = Trace w_two ++ [EvDec 1; EvLock; EvInc 1; EvUnlock].
Proof.
  apply (assign_own_buffer_shared caller_ab w_two
           [{| Data := HeapPtr 1 |}; {| Data := HeapPtr 1 |}]
           {| Data := HeapPtr 1 |} 1 (IncRefCount_data ab_1)).
  - apply reachable_w_two.
  - constructor.
  - reflexivity.
  - vm_compute. reflexivity.
  - vm_compute. reflexivity.
  - vm_compute. reflexivity.
  - vm_compute. discriminate.
Defined.

Lemma constructors_agree_witness :
  SharedString_string {| c_str := CallerBuf 1; size := 2 |} w_ab
    = SharedString_raw (CallerBuf 1) w_ab /\
  (2 <> 0 -> SharedString_literal (2 + 1) (CallerBuf 1) w_ab
             = SharedString_raw (CallerBuf 1) w_ab).
Proof.
  apply (constructors_agree w_ab (CallerBuf 1) (literal "ab") 2).
  - vm_compute. reflexivity.
  - vm_compute. reflexivity.
Defined.

Lemma construct_from_CStr_witness :
  exists w',
    SharedString_raw (CStr {| Data := HeapPtr 1 |}) w_two
      = Some ({| Data := HeapPtr 1 |}, w') /\
    Heap w' = <[1%positive := IncRefCount_data (IncRefCount_data ab_1)]> (Heap w_two) /\
    Storage w' = Storage w_two /\
    Trace w' = Trace w_two ++ [EvLock; EvInc 1; EvUnlock] /\
    pool_ok w' /\
    accounted w' [{| Data := HeapPtr 1 |}; {| Data := HeapPtr 1 |};
                  {| Data := HeapPtr 1 |}].
Proof.
  apply (construct_from_CStr caller_ab w_two
           [{| Data := HeapPtr 1 |}; {| Data := HeapPtr 1 |}]
           {| Data := HeapPtr 1 |} 1 (IncRefCount_data ab_1)).
  - apply reachable_w_two.
  - constructor.
  - reflexivity.
  - vm_compute. reflexivity.
  - vm_compute. reflexivity.
  - vm_compute. discriminate.
  - vm_compute. reflexivity.
Defined.

Lemma main_releases_everything_witness :
  exists w', main 1 2 3 4 (start caller_main) = Some (tt, w') /\
    Trace w' = [EvLock; EvNew 1 12; EvUnlock; EvLock; EvInc 1; EvUnlock;
                EvLock; EvNew 2 13; EvUnlock;
                EvDec 1; EvLock; EvNew 3 14; EvUnlock;
                EvDec 2; EvLock; EvDelete 2; EvUnlock;
                EvDec 3; EvLock; EvDelete 3; EvUnlock;
                EvDec 1; EvLock; EvDelete 1; EvUnlock] /\
    Heap w' = ∅ /\ Storage w' = [] /\ Caller w' = caller_main /\
    lock_depth (Trace w') = 0.
Proof.
  apply (main_releases_everything caller_main 1 2 3 4).
  - vm_compute. reflexivity.
  - vm_compute. reflexivity.
  - vm_compute. reflexivity.
  - vm_compute. reflexivity.
Defined.

Lemma release_races_with_AddString_witness :
  exists w1 w2 w3,
    DecRefCount (HeapPtr 1) w_one = Some (0, w1) /\
    AddString (CallerBuf 2) (Length ab_1) w1 = Some (HeapPtr 1, w2) /\
    RefCount <$> Heap w2 !! 1%positive = Some 1 /\
    RemoveString_erase (HeapPtr 1) w2 = Some (tt, w3) /\
    Heap w3 !! 1%positive = None /\
    Str {| Data := HeapPtr 1 |} w3 = None /\
    chars_at w3 (CStr {| Data := HeapPtr 1 |}) = None.
Proof.
  apply (release_races_with_AddString caller_ab w_one [{| Data := HeapPtr 1 |}]
           1 ab_1 2).
  - apply reachable_w_one.
  - vm_compute. reflexivity.
  - vm_compute. reflexivity.
  - vm_compute. reflexivity.
Defined.

Lemma mutex_discipline_witness : mutex_run false (Trace w_two) = Some false.
Proof.
  apply (mutex_discipline caller_ab w_two
           [{| Data := HeapPtr 1 |}; {| Data := HeapPtr 1 |}]).
  apply reachable_w_two.
Defined.
